(** * redis-clone: the RESP codec, the data store and the command engine

    A shallow embedding of [pkg/resp] (parser and writer) and of the
    [internal/server] package (value model, database, command handlers and
    the per-connection loop), followed by the properties of the
    specification that were checked against them.

    Conventions of the embedding.
    - A Go [string] is a sequence of bytes: Rocq's [string] (a list of
      8-bit [ascii]).  A byte stream (the [bufio.Reader] of a connection,
      the sink of an [io.Writer]) is a [string] as well.
    - A Go [int] is a 64-bit signed integer: a [Z] between [minInt] and
      [maxInt].
    - A slice is a [list]; the [nil] slice and the empty slice are both
      [[]] (the code only ever takes [len] and ranges over slices).
    - A run-time panic (index out of range, [make] with a negative
      length) is an explicit outcome, never hidden.
    - Commands are dispatched one at a time; the locks of the database
      and the interleaving of several connections are not modelled. *)

From Stdlib Require Import ZArith String Ascii List Lia Bool.
From stdpp Require Import base option list gmap strings.

Local Open Scope Z_scope.
Local Open Scope string_scope.

(** ** Bytes used by the wire format *)

Definition CR : ascii := "013"%char.
Definition LF : ascii := "010"%char.
Definition CRLF : string := String CR (String LF EmptyString).

(** ** Package [strconv] and [fmt]: decimal integers *)

Module strconv.

Definition minInt : Z := - 2 ^ 63.
Definition maxInt : Z := 2 ^ 63 - 1.

Definition is_digit (c : ascii) : bool :=
  ((48 <=? Z.of_N (N_of_ascii c)) && (Z.of_N (N_of_ascii c) <=? 57))%Z.

Definition digit_val (c : ascii) : Z := Z.of_N (N_of_ascii c) - 48.

(** The digit loop of [Atoi]/[ParseUint] in base ten: every byte has to
    be a decimal digit (no underscore, no space). *)
Fixpoint parse_digits (acc : Z) (s : string) : option Z :=
  match s with
  | EmptyString => Some acc
  | String c s' =>
      if is_digit c then parse_digits (acc * 10 + digit_val c) s' else None
  end.

(** [strconv.Atoi]: an optional sign, at least one digit, only digits,
    and a value that fits an [int]; [None] stands for the returned
    [*NumError] (syntax or range). *)
Definition Atoi (s : string) : option Z :=
  match s with
  | EmptyString => None
  | String c r =>
      let neg := Ascii.eqb c "-" in
      let body := if neg || Ascii.eqb c "+" then r else s in
      match body with
      | EmptyString => None
      | _ =>
          match parse_digits 0 body with
          | None => None
          | Some n =>
              let v := if neg then - n else n in
              if ((minInt <=? v) && (v <=? maxInt))%Z then Some v else None
          end
      end
  end.

Definition digit_char (d : Z) : ascii := ascii_of_N (Z.to_N (48 + d)).

(** The buffer-filling loop of [fmt]'s integer formatting: digits are
    produced from the least significant one and prepended. *)
Fixpoint fmt_digits (fuel : nat) (u : Z) (acc : string) : string :=
  match fuel with
  | O => acc
  | S fuel' =>
      if (u <? 10)%Z then String (digit_char u) acc
      else fmt_digits fuel' (u / 10) (String (digit_char (u mod 10)) acc)
  end.

(** The verb [%d] (and [strconv.Itoa]). *)
Definition Itoa (n : Z) : string :=
  let u := Z.abs n in
  let body := fmt_digits (S (Z.to_nat (Z.log2 u))) u EmptyString in
  if (n <? 0)%Z then String "-"%char body else body.

End strconv.

(** ** Package [resp]: values, parser, writer *)

Module resp.

Import strconv.

(** The struct [Value].  The field [Type] is spelled [Type_]. *)
#[warnings="-register-all"]
Inductive Value : Type :=
  mkValue {
    Type_ : string;
    Str : string;
    Num : Z;
    Bulk : string;
    Array : list Value;
    Null : bool
  }.

Definition STRING := "string".
Definition ERROR := "error".
Definition INTEGER := "integer".
Definition BULK := "bulk".
Definition ARRAY := "array".

(** The zero value [Value{}]. *)
Definition zeroValue : Value := mkValue "" "" 0 "" [] false.

(** *** Helper constructors (writer.go) *)

Definition NewSimpleString (s : string) : Value := mkValue STRING s 0 "" [] false.
Definition NewError (s : string) : Value := mkValue ERROR s 0 "" [] false.
Definition NewInteger (n : Z) : Value := mkValue INTEGER "" n "" [] false.
Definition NewBulkString (s : string) : Value := mkValue BULK "" 0 s [] false.
Definition NewNullBulkString : Value := mkValue BULK "" 0 "" [] true.
Definition NewArray (arr : list Value) : Value := mkValue ARRAY "" 0 "" arr false.
Definition NewNullArray : Value := mkValue ARRAY "" 0 "" [] true.

(** *** The parser (parser.go) *)

(** What a read can fail with. *)
Inductive error : Type :=
| EOF
| ErrUnexpectedEOF
| ErrUnknownType (typeByte : ascii)
| ErrInvalidInteger (line : string)
| ErrInvalidBulkLength (line : string)
| ErrInvalidArrayLength (line : string).

(** Outcome of a parsing step on the stream: a value and the bytes left
    in the reader, an [error], a run-time panic, or not enough fuel for
    the nesting of the input. *)
Inductive result (A : Type) : Type :=
| Ok (a : A) (rest : string)
| Err (e : error)
| Panic
| OutOfFuel.
Arguments Ok {A} a rest.
Arguments Err {A} e.
Arguments Panic {A}.
Arguments OutOfFuel {A}.

Definition Parser (A : Type) : Type := string -> result A.

Definition ret {A} (a : A) : Parser A := fun s => Ok a s.
Definition fail {A} (e : error) : Parser A := fun _ => Err e.
Definition bind {A B} (p : Parser A) (k : A -> Parser B) : Parser B :=
  fun s =>
    match p s with
    | Ok a rest => k a rest
    | Err e => Err e
    | Panic => Panic
    | OutOfFuel => OutOfFuel
    end.

Notation "'let*' x ':=' p 'in' k" := (bind p (fun x => k))
  (at level 10, x name, p at level 100, k at level 200).
Notation "'let*' '_' ':=' p 'in' k" := (bind p (fun _ => k))
  (at level 10, p at level 100, k at level 200).

(** [bufio.Reader.ReadByte]. *)
Definition ReadByte : Parser ascii :=
  fun s =>
    match s with
    | EmptyString => Err EOF
    | String c rest => Ok c rest
    end.

(** [p.reader.ReadByte()] with both results dropped: one byte is
    consumed when there is one, and nothing is reported otherwise. *)
Definition ReadByte_ignored : Parser unit :=
  fun s =>
    match s with
    | EmptyString => Ok tt EmptyString
    | String _ rest => Ok tt rest
    end.

(** [bufio.Reader.ReadString(delim)]: the bytes up to and including the
    first [delim]; [io.EOF] when the stream ends before one. *)
Fixpoint ReadString (delim : ascii) (s : string) : result string :=
  match s with
  | EmptyString => Err EOF
  | String c rest =>
      if Ascii.eqb c delim then Ok (String c EmptyString) rest
      else
        match ReadString delim rest with
        | Ok line rest' => Ok (String c line) rest'
        | other => other
        end
  end.

(** [strings.HasSuffix] and [strings.TrimSuffix]. *)
Definition HasSuffix (s suffix : string) : bool :=
  (String.length suffix <=? String.length s)%nat &&
  String.eqb
    (substring (String.length s - String.length suffix) (String.length suffix) s)
    suffix.

Definition TrimSuffix (s suffix : string) : string :=
  if HasSuffix s suffix
  then substring 0 (String.length s - String.length suffix) s
  else s.

(** [make([]T, length)]: a negative length panics.  Memory is taken as
    unbounded: a length beyond what the runtime can allocate, which
    panics too, is not modelled. *)
Definition make (length : Z) : Parser unit :=
  fun s => if (length <? 0)%Z then Panic else Ok tt s.

(** [io.ReadFull(p.reader, buf)] with [len(buf) = n]. *)
Fixpoint ReadFull (n : nat) (s : string) : result string :=
  match n with
  | O => Ok EmptyString s
  | S n' =>
      match s with
      | EmptyString => Err EOF
      | String c rest =>
          match ReadFull n' rest with
          | Ok buf rest' => Ok (String c buf) rest'
          | Err _ => Err ErrUnexpectedEOF
          | other => other
          end
      end
  end.

Definition readLine : Parser string :=
  let* line := ReadString LF in
  ret (TrimSuffix line CRLF).

Definition readSimpleString : Parser Value :=
  let* line := readLine in
  ret (mkValue STRING line 0 "" [] false).

Definition readError : Parser Value :=
  let* line := readLine in
  ret (mkValue ERROR line 0 "" [] false).

Definition readInteger : Parser Value :=
  let* line := readLine in
  match Atoi line with
  | None => fail (ErrInvalidInteger line)
  | Some num => ret (mkValue INTEGER "" num "" [] false)
  end.

Definition readBulkString : Parser Value :=
  let* line := readLine in
  if String.eqb line "-1" then ret (mkValue BULK "" 0 "" [] true)
  else
    match Atoi line with
    | None => fail (ErrInvalidBulkLength line)
    | Some length =>
        let* _ := make length in
        let* bulk := ReadFull (Z.to_nat length) in
        let* _ := ReadByte_ignored in
        let* _ := ReadByte_ignored in
        ret (mkValue BULK "" 0 bulk [] false)
    end.

(** The loop [for i := 0; i < length; i++] of [readArray], with the
    recursive call to [Read] abstracted as [read]. *)
Fixpoint readElements (read : Parser Value) (n : nat) : Parser (list Value) :=
  match n with
  | O => ret []
  | S n' =>
      let* val := read in
      let* vals := readElements read n' in
      ret (val :: vals)
  end.

Definition readArray (read : Parser Value) : Parser Value :=
  let* line := readLine in
  if String.eqb line "-1" then ret (mkValue ARRAY "" 0 "" [] true)
  else
    match Atoi line with
    | None => fail (ErrInvalidArrayLength line)
    | Some length =>
        let* _ := make length in
        let* array := readElements read (Z.to_nat length) in
        ret (mkValue ARRAY "" 0 "" array false)
    end.

(** [Parser.Read]; [fuel] bounds the nesting depth of arrays. *)
Fixpoint Read_fuel (fuel : nat) : Parser Value :=
  match fuel with
  | O => fun _ => OutOfFuel
  | S fuel' =>
      let* typeByte := ReadByte in
      if Ascii.eqb typeByte "+" then readSimpleString
      else if Ascii.eqb typeByte "-" then readError
      else if Ascii.eqb typeByte ":" then readInteger
      else if Ascii.eqb typeByte "$" then readBulkString
      else if Ascii.eqb typeByte "*" then readArray (Read_fuel fuel')
      else fail (ErrUnknownType typeByte)
  end.

(** Every nested [Read] starts by consuming a byte, so the nesting depth
    never exceeds the length of the input. *)
Definition Read : Parser Value :=
  fun s => Read_fuel (S (String.length s)) s.

(** *** The writer (writer.go) *)

Definition writeSimpleString (s : string) : string := "+" ++ s ++ CRLF.
Definition writeError (s : string) : string := "-" ++ s ++ CRLF.
Definition writeInteger (n : Z) : string := ":" ++ Itoa n ++ CRLF.
Definition writeBulkString (s : string) : string :=
  "$" ++ Itoa (Z.of_nat (String.length s)) ++ CRLF ++ s ++ CRLF.
Definition writeNullBulkString : string := "$-1" ++ CRLF.
Definition writeNullArray : string := "*-1" ++ CRLF.

(** [writeArray], with the recursive call to [Write] abstracted as
    [write]: the header, then the elements in order, stopping at the first
    one that fails.  A result is the bytes written and whether [nil] was
    returned. *)
Section writeArray.

Variable write : Value -> string * bool.

Fixpoint writeElements (arr : list Value) : string * bool :=
  match arr with
  | [] => (EmptyString, true)
  | val :: arr' =>
      let '(out, ok) := write val in
      if ok then
        let '(out', ok') := writeElements arr' in (out ++ out', ok')
      else (out, false)
  end.

Definition writeArray (arr : list Value) : string * bool :=
  let '(out, ok) := writeElements arr in
  ("*" ++ Itoa (Z.of_nat (length arr)) ++ CRLF ++ out, ok).

End writeArray.

(** [Writer.Write] on a sink that accepts every byte; [false] is the
    error "unknown value type". *)
Fixpoint Write (v : Value) : string * bool :=
  match v with
  | mkValue ty str num bulk arr null =>
      if String.eqb ty STRING then (writeSimpleString str, true)
      else if String.eqb ty ERROR then (writeError str, true)
      else if String.eqb ty INTEGER then (writeInteger num, true)
      else if String.eqb ty BULK then
        if null then (writeNullBulkString, true)
        else (writeBulkString bulk, true)
      else if String.eqb ty ARRAY then
        if null then (writeNullArray, true)
        else writeArray Write arr
      else (EmptyString, false)
  end.

End resp.

(** ** Package [server]: value model, database, command engine *)

Module server.

Import resp.

(** *** The value model (value.go) *)

(** The struct [RedisValue].  [Type], [String], [List], [Set] and [Hash]
    are spelled with a trailing underscore.  [ExpiresAt] is a
    [*time.Time]: [None] is [nil], and an instant is a number of
    nanoseconds.  The field [ZSet] ([map[string]float64]) is read and
    written by no function of the package and is left out. *)
Record RedisValue : Type :=
  mkRedisValue {
    Type_ : string;
    String_ : string;
    List_ : list string;
    Set_ : gmap string bool;
    Hash_ : gmap string string;
    ExpiresAt : option Z
  }.

Definition NewStringValue (s : string) : RedisValue :=
  mkRedisValue "string" s [] ∅ ∅ None.

Definition NewListValue : RedisValue :=
  mkRedisValue "list" "" [] ∅ ∅ None.

Definition NewSetValue : RedisValue :=
  mkRedisValue "set" "" [] ∅ ∅ None.

Definition NewHashValue : RedisValue :=
  mkRedisValue "hash" "" [] ∅ ∅ None.

(** [rv.List = l], every other field kept. *)
Definition set_List (rv : RedisValue) (l : list string) : RedisValue :=
  mkRedisValue (Type_ rv) (String_ rv) l (Set_ rv) (Hash_ rv) (ExpiresAt rv).

(** [IsExpired], with the reading [now] of [time.Now()]:
    [now.After(expiresAt)] is the strict [expiresAt < now].  A handler
    goes to the database once, and the readings of the clock during that
    call are taken as one instant (an entry seen expired stays expired). *)
Definition IsExpired (now : Z) (rv : RedisValue) : bool :=
  match ExpiresAt rv with
  | None => false
  | Some expiresAt => (expiresAt <? now)%Z
  end.

(** The methods with a pointer receiver return the new state of the
    receiver next to their result. *)
Definition ListPush (rv : RedisValue) (value : string) (left : bool)
  : RedisValue * Z :=
  if negb (String.eqb (Type_ rv) "list") then (rv, (-1)%Z)
  else
    let l := (if left then [value] ++ List_ rv else List_ rv ++ [value])%list in
    (set_List rv l, Z.of_nat (length l)).

Definition ListPop (rv : RedisValue) (left : bool)
  : RedisValue * (string * bool) :=
  if negb (String.eqb (Type_ rv) "list") || (length (List_ rv) =? 0)%nat
  then (rv, ("", false))
  else
    if left
    then (set_List rv (drop 1 (List_ rv)), (hd "" (List_ rv), true))
    else (set_List rv (take (length (List_ rv) - 1) (List_ rv)),
          (List.last (List_ rv) "", true)).

Definition ListLength (rv : RedisValue) : Z :=
  if negb (String.eqb (Type_ rv) "list") then 0%Z
  else Z.of_nat (length (List_ rv)).

(** [SetExpiration(ttl)] at the reading [now] of the clock; a duration is
    a number of nanoseconds, and instants are not bounded. *)
Definition SetExpiration (now ttl : Z) (rv : RedisValue) : RedisValue :=
  mkRedisValue (Type_ rv) (String_ rv) (List_ rv) (Set_ rv) (Hash_ rv)
    (Some (now + ttl)%Z).

(** [rv.Set = s] and [rv.Hash = h], every other field kept. *)
Definition set_Set (rv : RedisValue) (s : gmap string bool) : RedisValue :=
  mkRedisValue (Type_ rv) (String_ rv) (List_ rv) s (Hash_ rv) (ExpiresAt rv).

Definition set_Hash (rv : RedisValue) (h : gmap string string) : RedisValue :=
  mkRedisValue (Type_ rv) (String_ rv) (List_ rv) (Set_ rv) h (ExpiresAt rv).

(** The set and hash methods.  The map of a "set" or "hash" value is the
    one [NewSetValue] or [NewHashValue] made; [SetMembers], whose result
    follows the iteration order of a Go map, is not modelled. *)
Definition SetAdd (rv : RedisValue) (member : string) : RedisValue * bool :=
  if negb (String.eqb (Type_ rv) "set") then (rv, false)
  else
    let exists_ := match Set_ rv !! member with Some _ => true | None => false end in
    (set_Set rv (<[member := true]> (Set_ rv)), negb exists_).

Definition SetRemove (rv : RedisValue) (member : string) : RedisValue * bool :=
  if negb (String.eqb (Type_ rv) "set") then (rv, false)
  else
    let exists_ := match Set_ rv !! member with Some _ => true | None => false end in
    (set_Set rv (delete member (Set_ rv)), exists_).

Definition SetContains (rv : RedisValue) (member : string) : bool :=
  if negb (String.eqb (Type_ rv) "set") then false
  else match Set_ rv !! member with Some _ => true | None => false end.

Definition HashSet (rv : RedisValue) (field value : string) : RedisValue * bool :=
  if negb (String.eqb (Type_ rv) "hash") then (rv, false)
  else
    let exists_ := match Hash_ rv !! field with Some _ => true | None => false end in
    (set_Hash rv (<[field := value]> (Hash_ rv)), negb exists_).

Definition HashGet (rv : RedisValue) (field : string) : string * bool :=
  if negb (String.eqb (Type_ rv) "hash") then ("", false)
  else match Hash_ rv !! field with
       | Some value => (value, true)
       | None => ("", false)
       end.

Definition HashDelete (rv : RedisValue) (field : string) : RedisValue * bool :=
  if negb (String.eqb (Type_ rv) "hash") then (rv, false)
  else
    let exists_ := match Hash_ rv !! field with Some _ => true | None => false end in
    (set_Hash rv (delete field (Hash_ rv)), exists_).

(** [HashGetAll]: a copy of the map; [None] is the [nil] map returned
    for a value of another kind. *)
Definition HashGetAll (rv : RedisValue) : option (gmap string string) :=
  if negb (String.eqb (Type_ rv) "hash") then None
  else Some (Hash_ rv).

(** *** The database (server.go) *)

(** The map [data] of a [Database].  Every [*RedisValue] in it is
    allocated by the command that stores it and is reachable from its
    key only, so the map is taken from keys to values, and an update
    through a pointer a handler holds is written back under the key
    ([write_back]). *)
Abbreviation Database := (gmap string RedisValue).

Definition NewDatabase : Database := ∅.

(** Outcome of a command handler: its result and the database after it,
    or a run-time panic. *)
Inductive outcome (A : Type) : Type :=
| Done (a : A) (db : Database)
| Panicked.
Arguments Done {A} a db.
Arguments Panicked {A}.

Definition Cmd (A : Type) : Type := Database -> outcome A.

Definition cret {A} (a : A) : Cmd A := fun db => Done a db.
Definition cbind {A B} (c : Cmd A) (k : A -> Cmd B) : Cmd B :=
  fun db =>
    match c db with
    | Done a db' => k a db'
    | Panicked => Panicked
    end.

Notation "'do' x '<-' c ';' k" := (cbind c (fun x => k))
  (at level 10, x name, c at level 100, k at level 200).
Notation "'do' '_' '<-' c ';' k" := (cbind c (fun _ => k))
  (at level 10, c at level 100, k at level 200).

(** [l[i]]: an index out of range panics. *)
Definition index {A} (l : list A) (i : nat) : Cmd A :=
  fun db =>
    match l !! i with
    | Some x => Done x db
    | None => Panicked
    end.

(** [l[i:]]: panics when [i] exceeds [len(l)]. *)
Definition slice_from {A} (l : list A) (i : nat) : Cmd (list A) :=
  fun db => if (i <=? length l)%nat then Done (drop i l) db else Panicked.

Definition Database_Set (key value : string) : Cmd unit :=
  fun db => Done tt (<[key := NewStringValue value]> db).

Definition Database_Get (now : Z) (key : string) : Cmd (string * bool) :=
  fun db =>
    match db !! key with
    | None => Done ("", false) db
    | Some val =>
        if IsExpired now val then Done ("", false) (delete key db)
        else if negb (String.eqb (Type_ val) "string") then Done ("", false) db
        else Done (String_ val, true) db
    end.

(** [GetValue]: [None] is the pair [(nil, false)]. *)
Definition Database_GetValue (now : Z) (key : string) : Cmd (option RedisValue) :=
  fun db =>
    match db !! key with
    | None => Done None db
    | Some val =>
        if IsExpired now val then Done None (delete key db)
        else Done (Some val) db
    end.

Definition Database_SetValue (key : string) (value : RedisValue) : Cmd unit :=
  fun db => Done tt (<[key := value]> db).

Definition Database_Del (key : string) : Cmd bool :=
  fun db =>
    match db !! key with
    | Some _ => Done true (delete key db)
    | None => Done false db
    end.

(** The object stored under [key] has been updated in place to [val]. *)
Definition write_back (key : string) (val : RedisValue) : Cmd unit :=
  fun db => Done tt (<[key := val]> db).

(** *** The command handlers (server.go) *)

Definition WRONGTYPE : string :=
  "WRONGTYPE Operation against a key holding the wrong kind of value".

Definition handlePing (args : list Value) : Cmd Value :=
  if (length args =? 0)%nat then cret (NewSimpleString "PONG")
  else if (length args =? 1)%nat then
    do a0 <- index args 0;
    cret (NewBulkString (Bulk a0))
  else cret (NewError "ERR wrong number of arguments for 'ping' command").

Definition handleSet (args : list Value) : Cmd Value :=
  if negb (length args =? 2)%nat
  then cret (NewError "ERR wrong number of arguments for 'set' command")
  else
    do a0 <- index args 0;
    do a1 <- index args 1;
    let key := Bulk a0 in
    let value := Bulk a1 in
    do _ <- Database_Set key value;
    cret (NewSimpleString "OK").

Definition handleGet (now : Z) (args : list Value) : Cmd Value :=
  if negb (length args =? 1)%nat
  then cret (NewError "ERR wrong number of arguments for 'get' command")
  else
    do a0 <- index args 0;
    let key := Bulk a0 in
    do r <- Database_Get now key;
    let '(value, exists_) := r in
    if negb exists_ then cret NewNullBulkString
    else cret (NewBulkString value).

Definition handleDel (args : list Value) : Cmd Value :=
  if negb (length args =? 1)%nat
  then cret (NewError "ERR wrong number of arguments for 'del' command")
  else
    do a0 <- index args 0;
    let key := Bulk a0 in
    do deleted <- Database_Del key;
    if deleted then cret (NewInteger 1) else cret (NewInteger 0).

(** The loop [for i := 1; i < len(args); i++ { val.ListPush(args[i].Bulk, left) }]. *)
Definition pushAll (val : RedisValue) (args : list Value) (left : bool)
  : RedisValue :=
  fold_left (fun rv a => fst (ListPush rv (Bulk a) left)) (drop 1 args) val.

(** The end of both push handlers: the loop over the values, then the
    reply.  [val] points into the map at [key]. *)
Definition pushAndReply (key : string) (val : RedisValue)
    (args : list Value) (left : bool) : Cmd Value :=
  let val' := pushAll val args left in
  do _ <- write_back key val';
  cret (NewInteger (ListLength val')).

Definition handleLPush (now : Z) (args : list Value) : Cmd Value :=
  if (length args <? 2)%nat
  then cret (NewError "ERR wrong number of arguments for 'lpush' command")
  else
    do a0 <- index args 0;
    let key := Bulk a0 in
    do found <- Database_GetValue now key;
    match found with
    | None =>
        let val := NewListValue in
        do _ <- Database_SetValue key val;
        pushAndReply key val args true
    | Some val =>
        if negb (String.eqb (Type_ val) "list") then cret (NewError WRONGTYPE)
        else pushAndReply key val args true
    end.

Definition handleRPush (now : Z) (args : list Value) : Cmd Value :=
  if (length args <? 2)%nat
  then cret (NewError "ERR wrong number of arguments for 'rpush' command")
  else
    do a0 <- index args 0;
    let key := Bulk a0 in
    do found <- Database_GetValue now key;
    match found with
    | None =>
        let val := NewListValue in
        do _ <- Database_SetValue key val;
        pushAndReply key val args false
    | Some val =>
        if negb (String.eqb (Type_ val) "list") then cret (NewError WRONGTYPE)
        else pushAndReply key val args false
    end.

(** The end of both pop handlers, from the call of [ListPop] on. *)
Definition popAndReply (key : string) (val : RedisValue) (left : bool)
  : Cmd Value :=
  let '(val', (value, popped)) := ListPop val left in
  if negb popped then cret NewNullBulkString
  else
    do _ <- write_back key val';
    do _ <- (if (ListLength val' =? 0)%Z
             then do _ <- Database_Del key; cret tt
             else cret tt);
    cret (NewBulkString value).

Definition handleLPop (now : Z) (args : list Value) : Cmd Value :=
  if negb (length args =? 1)%nat
  then cret (NewError "ERR wrong number of arguments for 'lpop' command")
  else
    do a0 <- index args 0;
    let key := Bulk a0 in
    do found <- Database_GetValue now key;
    match found with
    | None => cret NewNullBulkString
    | Some val =>
        if negb (String.eqb (Type_ val) "list") then cret (NewError WRONGTYPE)
        else popAndReply key val true
    end.

Definition handleRPop (now : Z) (args : list Value) : Cmd Value :=
  if negb (length args =? 1)%nat
  then cret (NewError "ERR wrong number of arguments for 'rpop' command")
  else
    do a0 <- index args 0;
    let key := Bulk a0 in
    do found <- Database_GetValue now key;
    match found with
    | None => cret NewNullBulkString
    | Some val =>
        if negb (String.eqb (Type_ val) "list") then cret (NewError WRONGTYPE)
        else popAndReply key val false
    end.

Definition handleLLen (now : Z) (args : list Value) : Cmd Value :=
  if negb (length args =? 1)%nat
  then cret (NewError "ERR wrong number of arguments for 'llen' command")
  else
    do a0 <- index args 0;
    let key := Bulk a0 in
    do found <- Database_GetValue now key;
    match found with
    | None => cret (NewInteger 0)
    | Some val =>
        if negb (String.eqb (Type_ val) "list") then cret (NewError WRONGTYPE)
        else cret (NewInteger (ListLength val))
    end.

Definition handleType (now : Z) (args : list Value) : Cmd Value :=
  if negb (length args =? 1)%nat
  then cret (NewError "ERR wrong number of arguments for 'type' command")
  else
    do a0 <- index args 0;
    let key := Bulk a0 in
    do found <- Database_GetValue now key;
    match found with
    | None => cret (NewSimpleString "none")
    | Some val => cret (NewSimpleString (Type_ val))
    end.

(** [processCommand]; [now] is the reading of the clock while the
    command runs. *)
Definition processCommand (now : Z) (value : Value) : Cmd Value :=
  if negb (String.eqb (resp.Type_ value) "array")
     || (length (Array value) =? 0)%nat
  then cret (NewError "ERR invalid command format")
  else
    do first <- index (Array value) 0;
    let command := Bulk first in
    do args <- slice_from (Array value) 1;
    if String.eqb command "PING" then handlePing args
    else if String.eqb command "SET" then handleSet args
    else if String.eqb command "GET" then handleGet now args
    else if String.eqb command "DEL" then handleDel args
    else if String.eqb command "LPUSH" then handleLPush now args
    else if String.eqb command "RPUSH" then handleRPush now args
    else if String.eqb command "LPOP" then handleLPop now args
    else if String.eqb command "RPOP" then handleRPop now args
    else if String.eqb command "LLEN" then handleLLen now args
    else if String.eqb command "TYPE" then handleType now args
    else if String.eqb command "QUIT" then cret (NewSimpleString "OK")
    else cret (NewError ("ERR unknown command '" ++ command ++ "'")).

(** *** The per-connection loop ([handleClient]) *)

(** The connection of one client: the bytes it still has to deliver, the
    bytes written to it so far, and the database the server shares. *)
Inductive ConnState : Type :=
| AwaitingRequest (input output : string) (db : Database)
| Closed (output : string) (db : Database)
| Crashed.

(** One turn of the loop of [handleClient]: read a request, process it,
    write the reply; a failed read or write returns from the function
    (the deferred [conn.Close()] closes the connection), and a panic
    takes the process down.  [Read] never lacks fuel. *)
Definition serve (now : Z) (st : ConnState) : ConnState :=
  match st with
  | AwaitingRequest input output db =>
      match Read input with
      | Ok value rest =>
          match processCommand now value db with
          | Done response db' =>
              let '(bytes, ok) := Write response in
              if ok then AwaitingRequest rest (output ++ bytes) db'
              else Closed (output ++ bytes) db'
          | Panicked => Crashed
          end
      | Err _ => Closed output db
      | Panic => Crashed
      | OutOfFuel => Crashed
      end
  | Closed output db => Closed output db
  | Crashed => Crashed
  end.

(** The loop itself; [clock i] is the reading of the clock during turn
    [i].  Each turn that does not end the loop consumes input, so
    [handleClient] gives it one turn more than there are bytes. *)
Fixpoint serve_loop (clock : nat -> Z) (turns : nat) (i : nat)
    (st : ConnState) : ConnState :=
  match turns with
  | O => st
  | S turns' =>
      match st with
      | AwaitingRequest _ _ _ =>
          serve_loop clock turns' (S i) (serve (clock i) st)
      | _ => st
      end
  end.

Definition handleClient (clock : nat -> Z) (input : string) (db : Database)
  : ConnState :=
  serve_loop clock (S (String.length input)) 0
    (AwaitingRequest input EmptyString db).

(** A sequence of requests dispatched one after the other, each with
    the reading of the clock at its time; all replies are collected. *)
Fixpoint dispatchAll (requests : list (Z * Value)) : Cmd (list Value) :=
  match requests with
  | [] => cret []
  | (now, value) :: requests' =>
      do response <- processCommand now value;
      do responses <- dispatchAll requests';
      cret (response :: responses)
  end.

(** The request a client sends for a command line
    ([sendCommand] of the test programs): an Array of BulkStrings. *)
Definition request (words : list string) : Value :=
  NewArray (map NewBulkString words).

End server.

(** ** Vocabulary of the properties *)

Import strconv resp server.

(** The byte [b] occurs in [s]. *)
Fixpoint has_byte (b : ascii) (s : string) : bool :=
  match s with
  | EmptyString => false
  | String c s' => Ascii.eqb c b || has_byte b s'
  end.

(** [strings.Contains]. *)
Fixpoint Contains (s substr : string) : bool :=
  String.prefix substr s ||
  match s with
  | EmptyString => false
  | String _ s' => Contains s' substr
  end.

(** The values the helper constructors of the writer build, with the
    bounds the Go types impose ([Num] and every [len] are [int]s). *)
#[warnings="-register-all"]
Inductive constructible : Value -> Prop :=
| constructible_SimpleString (s : string) :
    constructible (NewSimpleString s)
| constructible_Error (s : string) :
    constructible (NewError s)
| constructible_Integer (n : Z) :
    minInt <= n <= maxInt -> constructible (NewInteger n)
| constructible_BulkString (s : string) :
    Z.of_nat (String.length s) <= maxInt -> constructible (NewBulkString s)
| constructible_NullBulkString :
    constructible NewNullBulkString
| constructible_Array (arr : list Value) :
    Z.of_nat (length arr) <= maxInt ->
    Forall constructible arr -> constructible (NewArray arr)
| constructible_NullArray :
    constructible NewNullArray.

(** No line feed in any [Str] field, at any depth: the text of every
    SimpleString and Error fits on one line of the wire format. *)
Fixpoint single_line (v : Value) : bool :=
  match v with
  | mkValue _ str _ _ arr _ =>
      negb (has_byte LF str) && forallb single_line arr
  end.

(** The nesting depth of arrays in a value. *)
Fixpoint depth (v : Value) : nat :=
  match v with
  | mkValue _ _ _ _ arr _ => S (list_max (map depth arr))
  end.

(** The bytes [Writer.Write] produces. *)
Definition encode (v : Value) : string := fst (Write v).

(** The value is neither of the two null forms. *)
Definition not_null_form (v : Value) : Prop :=
  v <> NewNullBulkString /\ v <> NewNullArray.

(** A reply with every kind of value in it. *)
Definition sample_reply : Value :=
  NewArray
    [NewSimpleString "OK"; NewError "ERR unknown command 'FOO'";
     NewInteger (-42); NewBulkString "hello"; NewNullBulkString;
     NewArray [NewBulkString ""; NewNullArray]; NewArray []].

(** A list entry whose expiration instant is 5. *)
Definition stale_list : RedisValue :=
  mkRedisValue "list" "" ["a"] ∅ ∅ (Some 5).

(** The store invariant of the command engine: only "string" and "list"
    entries, and no empty list. *)
Definition entry_ok (rv : RedisValue) : Prop :=
  (server.Type_ rv = "string" \/
   (server.Type_ rv = "list" /\ List_ rv <> [])).

Definition store_ok (db : gmap string RedisValue) : Prop :=
  map_Forall (fun _ rv => entry_ok rv) db.

(** The outcome is not a lack of fuel, and what is left of the stream is
    no longer than [n]. *)
Definition settled {A} (n : nat) (r : result A) : Prop :=
  match r with
  | Ok _ rest => (String.length rest <= n)%nat
  | OutOfFuel => False
  | _ => True
  end.

(** [r'] is [r] unless [r] lacked fuel: what more fuel may change. *)
Definition refines {A} (r r' : result A) : Prop := r = OutOfFuel \/ r = r'.

(** The reader gives back [v] from the bytes of [v], whatever follows them. *)
Definition reads_back (v : Value) : Prop :=
  snd (Write v) = true /\
  forall (fuel : nat) (rest : string),
    (depth v <= fuel)%nat -> Read_fuel fuel (encode v ++ rest) = Ok v rest.

(** A command returns from every store (no panic), and from a store that
    satisfies [store_ok] it leaves one that does. *)
Definition safe {A} (c : Cmd A) : Prop :=
  forall db, exists (a : A) (db' : gmap string RedisValue),
    c db = Done a db' /\ (store_ok db -> store_ok db').

(** The bytes of several values written one after the other. *)
Fixpoint encodeAll (vs : list Value) : string :=
  match vs with
  | [] => EmptyString
  | v :: vs' => encode v ++ encodeAll vs'
  end.


(** Every [Type] the writer knows, down the elements it reaches. *)
Fixpoint known_types (v : Value) : bool :=
  match v with
  | mkValue ty _ _ _ arr null =>
      String.eqb ty STRING || String.eqb ty ERROR || String.eqb ty INTEGER ||
      String.eqb ty BULK ||
      (String.eqb ty ARRAY && (null || forallb known_types arr))
  end.

(** The commands of [processCommand] that check their number of
    arguments, with the name their error message uses and the check. *)
Definition arity_table : list (string * (string * (nat -> bool))) :=
  [ ("PING", ("ping", fun n => (n <=? 1)%nat));
    ("SET", ("set", fun n => (n =? 2)%nat));
    ("GET", ("get", fun n => (n =? 1)%nat));
    ("DEL", ("del", fun n => (n =? 1)%nat));
    ("LPUSH", ("lpush", fun n => (2 <=? n)%nat));
    ("RPUSH", ("rpush", fun n => (2 <=? n)%nat));
    ("LPOP", ("lpop", fun n => (n =? 1)%nat));
    ("RPOP", ("rpop", fun n => (n =? 1)%nat));
    ("LLEN", ("llen", fun n => (n =? 1)%nat));
    ("TYPE", ("type", fun n => (n =? 1)%nat)) ].

(** The names [processCommand] dispatches on. *)
Definition command_names : list string :=
  ["PING"; "SET"; "GET"; "DEL"; "LPUSH"; "RPUSH"; "LPOP"; "RPOP"; "LLEN";
   "TYPE"; "QUIT"].

(** A set built from [NewSetValue] by adding the members in order, and a
    hash built from [NewHashValue] by setting the fields in order. *)
Definition set_of (members : list string) : RedisValue :=
  fold_left (fun rv member => fst (SetAdd rv member)) members NewSetValue.

Definition hash_of (fields : list (string * string)) : RedisValue :=
  fold_left (fun rv fv => fst (HashSet rv (fst fv) (snd fv))) fields NewHashValue.

(** What remains after a successful step is a suffix of the stream. *)
Definition leaves_suffix {A} (s : string) (r : result A) : Prop :=
  match r with
  | Ok _ rest => exists consumed : string, s = consumed ++ rest
  | _ => True
  end.

(** The value of a successful step satisfies [Q]. *)
Definition yields {A} (Q : A -> Prop) (r : result A) : Prop :=
  match r with
  | Ok a _ => Q a
  | _ => True
  end.

(** A command leaves the key [k] of the store as it found it. *)
Definition keeps {A} (k : string) (c : Cmd A) : Prop :=
  forall (db : gmap string RedisValue) (a : A) (db' : gmap string RedisValue),
    c db = Done a db' -> db' !! k = db !! k.

(** Every reply of a command satisfies [R]. *)
Definition replies_with (R : Value -> Prop) (c : Cmd Value) : Prop :=
  forall (db : gmap string RedisValue) (r : Value) (db' : gmap string RedisValue),
    c db = Done r db' -> R r.

(** A reply the writer accepts and that is no Array. *)
Definition plain_reply (r : Value) : Prop :=
  snd (Write r) = true /\
  (resp.Type_ r = STRING \/ resp.Type_ r = ERROR \/
   resp.Type_ r = INTEGER \/ resp.Type_ r = BULK).

(** The body of [Parser.Read], the recursive call abstracted as [read]. *)
Definition Read_body (read : Parser Value) : Parser Value :=
  let* typeByte := ReadByte in
  if Ascii.eqb typeByte "+" then readSimpleString
  else if Ascii.eqb typeByte "-" then readError
  else if Ascii.eqb typeByte ":" then readInteger
  else if Ascii.eqb typeByte "$" then readBulkString
  else if Ascii.eqb typeByte "*" then readArray read
  else fail (ErrUnknownType typeByte).

(** A value that can be written and read back: constructible, and no
    line feed in its SimpleString and Error texts. *)
Definition transmissible (v : Value) : Prop :=
  constructible v /\ single_line v = true.

(** * Properties *)

(** ** Strings as byte sequences *)

Section Strings.

Lemma append_nil (b : string) : "" ++ b = b.
Proof. reflexivity. Qed.

Lemma append_cons (x : ascii) (a b : string) :
  String x a ++ b = String x (a ++ b).
Proof. reflexivity. Qed.

Lemma append_assoc (a b c : string) : (a ++ b) ++ c = a ++ (b ++ c).
Proof.
  induction a as [|x a IH]; [reflexivity|].
  rewrite !append_cons. now rewrite IH.
Qed.

Lemma append_empty_r (a : string) : a ++ "" = a.
Proof.
  induction a as [|x a IH]; [reflexivity|].
  rewrite append_cons. now rewrite IH.
Qed.

Lemma length_append (a b : string) :
  String.length (a ++ b) = (String.length a + String.length b)%nat.
Proof.
  induction a as [|x a IH]; [reflexivity|].
  rewrite append_cons. simpl. now rewrite IH.
Qed.

Lemma substring_skip (a b : string) (m : nat) :
  substring (String.length a) m (a ++ b) = substring 0 m b.
Proof.
  induction a as [|x a IH]; [reflexivity|].
  rewrite append_cons. simpl. exact IH.
Qed.

Lemma substring_prefix (a b : string) :
  substring 0 (String.length a) (a ++ b) = a.
Proof.
  induction a as [|x a IH].
  - destruct b; reflexivity.
  - rewrite append_cons. simpl. now rewrite IH.
Qed.

End Strings.

(** ** Decimal integers: [Atoi] reads back what [%d] prints *)

Section Decimal.

Import strconv.

Lemma digit_cases (d : Z) :
  0 <= d < 10 ->
  d = 0 \/ d = 1 \/ d = 2 \/ d = 3 \/ d = 4 \/
  d = 5 \/ d = 6 \/ d = 7 \/ d = 8 \/ d = 9.
Proof. lia. Qed.

Lemma digit_char_spec (d : Z) :
  0 <= d < 10 ->
  is_digit (digit_char d) = true /\ digit_val (digit_char d) = d /\
  Ascii.eqb (digit_char d) LF = false.
Proof.
  intros H. destruct (digit_cases d H) as [->|[->|[->|[->|[->|[->|[->|[->|[->| ->]]]]]]]]];
    repeat split; reflexivity.
Qed.

Lemma is_digit_not_sign (c : ascii) :
  is_digit c = true -> Ascii.eqb c "-" = false /\ Ascii.eqb c "+" = false.
Proof.
  intros H. split; apply Ascii.eqb_neq; intros ->; discriminate H.
Qed.

Lemma fmt_digits_acc_nonempty (fuel : nat) (u : Z) (c : ascii) (acc : string) :
  fmt_digits fuel u (String c acc) <> "".
Proof.
  revert u c acc. induction fuel as [|fuel IH]; simpl; intros u c acc.
  - discriminate.
  - destruct (u <? 10)%Z; [discriminate | apply IH].
Qed.

Lemma fmt_digits_nonempty (fuel : nat) (u : Z) (acc : string) :
  fmt_digits (S fuel) u acc <> "".
Proof.
  simpl. destruct (u <? 10)%Z; [discriminate | apply fmt_digits_acc_nonempty].
Qed.

(** Reading the printed digits of [u] shifts the accumulator by their
    number and adds [u]. *)
Lemma parse_fmt_digits (fuel : nat) :
  forall (u : Z) (acc : string),
    0 <= u < 10 ^ Z.of_nat fuel ->
    exists k : Z, 0 <= k /\
      forall a : Z,
        parse_digits a (fmt_digits fuel u acc) = parse_digits (a * 10 ^ k + u) acc.
Proof.
  induction fuel as [|fuel IH]; intros u acc Hu.
  - exists 0. split; [lia|]. intros a. simpl in *.
    replace u with 0 by lia. f_equal; lia.
  - cbn [fmt_digits]. destruct (Z.ltb_spec u 10) as [Hlt | Hge].
    + exists 1. split; [lia|]. intros a. cbn [parse_digits].
      destruct (digit_char_spec u ltac:(lia)) as (-> & -> & _).
      f_equal; lia.
    + assert (Hq : 0 <= u / 10 < 10 ^ Z.of_nat fuel).
      { split; [apply Z.div_pos; lia|].
        apply Z.div_lt_upper_bound; [lia|].
        rewrite Nat2Z.inj_succ, Z.pow_succ_r in Hu; lia. }
      destruct (IH (u / 10) (String (digit_char (u mod 10)) acc) Hq)
        as (k & Hk & Hparse).
      exists (k + 1). split; [lia|]. intros a. rewrite Hparse.
      cbn [parse_digits].
      destruct (digit_char_spec (u mod 10) ltac:(apply Z.mod_pos_bound; lia))
        as (-> & -> & _).
      f_equal. rewrite Z.pow_add_r by lia.
      pose proof (Z.div_mod u 10 ltac:(lia)). lia.
Qed.

Lemma Itoa_fuel (u : Z) :
  0 <= u -> u < 10 ^ Z.of_nat (S (Z.to_nat (Z.log2 u))).
Proof.
  intros Hu. rewrite Nat2Z.inj_succ, Z2Nat.id by apply Z.log2_nonneg.
  destruct (Z.eq_dec u 0) as [->|Hnz]; [reflexivity|].
  destruct (Z.log2_spec u ltac:(lia)) as [_ Hub].
  eapply Z.lt_le_trans; [exact Hub|].
  apply Z.pow_le_mono_l. lia.
Qed.

Lemma parse_digits_Itoa_nonneg (u : Z) :
  0 <= u -> parse_digits 0 (Itoa u) = Some u.
Proof.
  intros Hu. unfold Itoa. rewrite Z.abs_eq by lia.
  destruct (Z.ltb_spec u 0) as [?|_]; [lia|].
  destruct (parse_fmt_digits _ u "" (conj Hu (Itoa_fuel u Hu))) as (k & _ & ->).
  reflexivity.
Qed.

Lemma Atoi_digits (s : string) (n : Z) :
  s <> "" -> parse_digits 0 s = Some n -> minInt <= n <= maxInt ->
  Atoi s = Some n.
Proof.
  intros Hne Hp Hr. destruct s as [|c r]; [congruence|].
  unfold Atoi. 
  assert (Hd : is_digit c = true).
  { cbn [parse_digits] in Hp. destruct (is_digit c); [reflexivity|discriminate]. }
  destruct (is_digit_not_sign c Hd) as [-> ->]. cbn [orb].
  rewrite Hp.
  destruct (Z.leb_spec minInt n); [|lia].
  destruct (Z.leb_spec n maxInt); [|lia]. reflexivity.
Qed.

Lemma Itoa_nonneg_nonempty (u : Z) : 0 <= u -> Itoa u <> "".
Proof.
  intros Hu. unfold Itoa.
  destruct (Z.ltb_spec u 0) as [?|_]; [lia|]. apply fmt_digits_nonempty.
Qed.

Lemma Itoa_neg (n : Z) : n < 0 -> Itoa n = String "-" (Itoa (- n)).
Proof.
  intros Hn. unfold Itoa.
  destruct (Z.ltb_spec n 0) as [_|?]; [|lia].
  destruct (Z.ltb_spec (- n) 0) as [?|_]; [lia|].
  now rewrite Z.abs_opp.
Qed.

Theorem Atoi_Itoa (n : Z) :
  minInt <= n <= maxInt -> Atoi (Itoa n) = Some n.
Proof.
  intros Hr. destruct (Z.lt_ge_cases n 0) as [Hneg | Hpos].
  - rewrite Itoa_neg by exact Hneg.
    pose proof (parse_digits_Itoa_nonneg (- n) ltac:(lia)) as Hp.
    pose proof (Itoa_nonneg_nonempty (- n) ltac:(lia)) as Hne.
    unfold Atoi. cbn [Ascii.eqb Bool.eqb orb].
    destruct (Itoa (- n)) as [|c r] eqn:E; [congruence|].
    rewrite Hp. rewrite Z.opp_involutive.
    destruct (Z.leb_spec minInt n); [|lia].
    destruct (Z.leb_spec n maxInt); [|lia]. reflexivity.
  - apply Atoi_digits; [apply Itoa_nonneg_nonempty; lia
                       |apply parse_digits_Itoa_nonneg; lia | exact Hr].
Qed.
End Decimal.

(** ** The parser on well-framed input *)

Section Framing.

Lemma has_byte_append (b : ascii) (s t : string) :
  has_byte b (s ++ t) = has_byte b s || has_byte b t.
Proof.
  induction s as [|c s IH]; [reflexivity|].
  rewrite append_cons. simpl. rewrite IH. now rewrite orb_assoc.
Qed.

Lemma ReadString_found (delim : ascii) (s rest : string) :
  has_byte delim s = false ->
  ReadString delim (s ++ String delim rest) = Ok (s ++ String delim "") rest.
Proof.
  induction s as [|c s IH]; intros Hs.
  - rewrite !append_nil. simpl. now rewrite Ascii.eqb_refl.
  - rewrite !append_cons. simpl in *.
    apply orb_false_elim in Hs as [-> Hs]. now rewrite (IH Hs).
Qed.

Lemma TrimSuffix_CRLF (s : string) : TrimSuffix (s ++ CRLF) CRLF = s.
Proof.
  unfold TrimSuffix, HasSuffix. rewrite length_append.
  change (String.length CRLF) with 2%nat.
  replace (String.length s + 2 - 2)%nat with (String.length s) by lia.
  rewrite substring_skip, substring_prefix.
  destruct (Nat.leb_spec 2 (String.length s + 2)); [|lia].
  reflexivity.
Qed.

(** A line without line feed, followed by CR LF, is read back whole. *)
Lemma readLine_framed (s rest : string) :
  has_byte LF s = false ->
  readLine (s ++ CRLF ++ rest) = Ok s rest.
Proof.
  intros Hs. unfold readLine, bind, ret.
  replace (s ++ CRLF ++ rest) with ((s ++ String CR "") ++ String LF rest)
    by now rewrite append_assoc.
  rewrite ReadString_found.
  - rewrite append_assoc. change (String CR "" ++ String LF "") with CRLF.
    now rewrite TrimSuffix_CRLF.
  - rewrite has_byte_append, Hs. reflexivity.
Qed.

Lemma ReadFull_exact (s rest : string) :
  ReadFull (String.length s) (s ++ rest) = Ok s rest.
Proof.
  induction s as [|c s IH]; [reflexivity|].
  rewrite append_cons. simpl. now rewrite IH.
Qed.

Lemma fmt_digits_no_LF (fuel : nat) :
  forall (u : Z) (acc : string),
    0 <= u -> has_byte LF acc = false ->
    has_byte LF (fmt_digits fuel u acc) = false.
Proof.
  induction fuel as [|fuel IH]; intros u acc Hu Hacc; [exact Hacc|].
  cbn [fmt_digits]. destruct (Z.ltb_spec u 10) as [Hlt|Hge].
  - simpl. destruct (digit_char_spec u ltac:(lia)) as (_ & _ & ->). exact Hacc.
  - apply IH; [apply Z.div_pos; lia|].
    simpl.
    destruct (digit_char_spec (u mod 10) ltac:(apply Z.mod_pos_bound; lia))
      as (_ & _ & ->).
    exact Hacc.
Qed.

Lemma Itoa_no_LF (n : Z) : has_byte LF (Itoa n) = false.
Proof.
  unfold Itoa. destruct (n <? 0)%Z; cbn [has_byte Ascii.eqb Bool.eqb LF orb];
    apply fmt_digits_no_LF; try reflexivity; apply Z.abs_nonneg.
Qed.

Lemma Itoa_nonneg_not_minus_one (n : Z) :
  0 <= n <= maxInt -> String.eqb (Itoa n) "-1" = false.
Proof.
  intros Hn. apply String.eqb_neq. intros E.
  assert (H : Atoi (Itoa n) = Some n) by (apply Atoi_Itoa; unfold minInt; lia).
  rewrite E in H. vm_compute in H. injection H as H. lia.
Qed.

End Framing.

(** ** [Read] always has fuel enough *)

Section Fuel.

Lemma settled_weaken {A} (n m : nat) (r : result A) :
  (n <= m)%nat -> settled n r -> settled m r.
Proof. destruct r; simpl; lia || tauto. Qed.

Lemma settled_bind {A B} (p : Parser A) (k : A -> Parser B) (s : string) (n m : nat) :
  settled n (p s) ->
  (forall a rest, (String.length rest <= n)%nat -> settled m (k a rest)) ->
  settled m (bind p k s).
Proof.
  unfold bind. destruct (p s); simpl; auto; contradiction.
Qed.

Lemma ReadByte_settled (s : string) :
  settled (String.length s - 1) (ReadByte s).
Proof. destruct s; simpl; lia. Qed.

Lemma ReadByte_ignored_settled (s : string) :
  settled (String.length s) (ReadByte_ignored s).
Proof. destruct s; simpl; lia. Qed.

Lemma ReadString_settled (delim : ascii) (s : string) :
  settled (String.length s) (ReadString delim s).
Proof.
  induction s as [|c s IH]; simpl; [exact I|].
  destruct (Ascii.eqb c delim); simpl; [lia|].
  destruct (ReadString delim s); simpl in *; lia || tauto.
Qed.

Lemma ReadFull_settled (n : nat) (s : string) :
  settled (String.length s) (ReadFull n s).
Proof.
  revert s. induction n as [|n IH]; intros s; simpl; [lia|].
  destruct s as [|c s]; simpl; [exact I|].
  specialize (IH s). destruct (ReadFull n s); simpl in *; lia || tauto.
Qed.

Lemma make_settled (length : Z) (s : string) :
  settled (String.length s) (make length s).
Proof. unfold make. destruct (length <? 0)%Z; simpl; lia || tauto. Qed.

Lemma readLine_settled (s : string) :
  settled (String.length s) (readLine s).
Proof.
  unfold readLine. eapply settled_bind; [apply ReadString_settled|].
  intros a rest H. exact H.
Qed.

Ltac line_then :=
  eapply settled_bind; [apply readLine_settled|]; intros ? ? ?.

Lemma readSimpleString_settled (s : string) :
  settled (String.length s) (readSimpleString s).
Proof. unfold readSimpleString. line_then. assumption. Qed.

Lemma readError_settled (s : string) :
  settled (String.length s) (readError s).
Proof. unfold readError. line_then. assumption. Qed.

Lemma readInteger_settled (s : string) :
  settled (String.length s) (readInteger s).
Proof.
  unfold readInteger. line_then. destruct (Atoi a); simpl; [assumption|exact I].
Qed.

Lemma readBulkString_settled (s : string) :
  settled (String.length s) (readBulkString s).
Proof.
  unfold readBulkString. line_then.
  destruct (String.eqb a "-1"); [assumption|].
  destruct (Atoi a) as [len|]; [|exact I].
  eapply settled_bind; [apply make_settled|]; intros _ r1 H1.
  eapply settled_bind; [apply ReadFull_settled|]; intros bulk r2 H2.
  eapply settled_bind; [apply ReadByte_ignored_settled|]; intros _ r3 H3.
  eapply settled_bind; [apply ReadByte_ignored_settled|]; intros _ r4 H4.
  simpl. lia.
Qed.

Lemma readElements_settled (read : Parser Value) (m : nat) :
  (forall s, (String.length s <= m)%nat -> settled (String.length s) (read s)) ->
  forall (n : nat) (s : string),
    (String.length s <= m)%nat ->
    settled (String.length s) (readElements read n s).
Proof.
  intros Hread. induction n as [|n IH]; intros s Hs; simpl; [lia|].
  eapply settled_bind; [apply Hread, Hs|]; intros val r1 H1.
  eapply settled_bind; [apply IH; lia|]; intros vals r2 H2.
  simpl. lia.
Qed.

Lemma readArray_settled (read : Parser Value) (s : string) :
  (forall s', (String.length s' <= String.length s)%nat ->
              settled (String.length s') (read s')) ->
  settled (String.length s) (readArray read s).
Proof.
  intros Hread. unfold readArray. line_then.
  destruct (String.eqb a "-1"); [assumption|].
  destruct (Atoi a) as [len|]; [|exact I].
  eapply settled_bind; [apply make_settled|]; intros _ r1 H1.
  eapply settled_bind.
  - apply (readElements_settled read (String.length s)); [exact Hread | lia].
  - intros arr r2 H2. simpl. lia.
Qed.

Lemma Read_fuel_settled (fuel : nat) :
  forall s : string,
    (String.length s < fuel)%nat -> settled (String.length s) (Read_fuel fuel s).
Proof.
  induction fuel as [|fuel IH]; intros s Hs; [lia|].
  destruct s as [|typeByte rest]; [exact I|].
  cbn [Read_fuel]. unfold bind at 1. cbn [ReadByte].
  simpl in Hs. apply (settled_weaken (String.length rest)); [simpl; lia|].
  destruct (Ascii.eqb typeByte "+"); [apply readSimpleString_settled|].
  destruct (Ascii.eqb typeByte "-"); [apply readError_settled|].
  destruct (Ascii.eqb typeByte ":"); [apply readInteger_settled|].
  destruct (Ascii.eqb typeByte "$"); [apply readBulkString_settled|].
  destruct (Ascii.eqb typeByte "*"); [|exact I].
  apply readArray_settled. intros s' Hlen. apply IH. lia.
Qed.

(** [Read] returns a value, an error or panics; it never lacks fuel. *)
Theorem Read_total (s : string) : Read s <> OutOfFuel.
Proof.
  unfold Read. pose proof (Read_fuel_settled (S (String.length s)) s ltac:(lia)) as H.
  intros E. rewrite E in H. exact H.
Qed.

Lemma refines_refl {A} (r : result A) : refines r r.
Proof. now right. Qed.

Lemma refines_bind {A B} (p p' : Parser A) (k k' : A -> Parser B) (s : string) :
  refines (p s) (p' s) ->
  (forall a rest, refines (k a rest) (k' a rest)) ->
  refines (bind p k s) (bind p' k' s).
Proof.
  unfold bind. intros [E | E] Hk; rewrite E; [now left|].
  destruct (p' s); auto using refines_refl.
Qed.

Lemma readElements_refines (read read' : Parser Value) :
  (forall s, refines (read s) (read' s)) ->
  forall n s, refines (readElements read n s) (readElements read' n s).
Proof.
  intros Hread. induction n as [|n IH]; intros s; simpl; [apply refines_refl|].
  apply refines_bind; [apply Hread|]. intros val r1.
  apply refines_bind; [apply IH|]. intros vals r2. apply refines_refl.
Qed.

Lemma readArray_refines (read read' : Parser Value) :
  (forall s, refines (read s) (read' s)) ->
  forall s, refines (readArray read s) (readArray read' s).
Proof.
  intros Hread s. unfold readArray.
  apply refines_bind; [apply refines_refl|]. intros line r1.
  destruct (String.eqb line "-1"); [apply refines_refl|].
  destruct (Atoi line); [|apply refines_refl].
  apply refines_bind; [apply refines_refl|]. intros _ r2.
  apply refines_bind; [apply readElements_refines, Hread|]. intros arr r3.
  apply refines_refl.
Qed.

Lemma Read_fuel_refines (fuel : nat) :
  forall s, refines (Read_fuel fuel s) (Read_fuel (S fuel) s).
Proof.
  induction fuel as [|fuel IH]; intros s; [now left|].
  change (Read_fuel (S (S fuel))) with
    (bind ReadByte (fun typeByte =>
        if Ascii.eqb typeByte "+" then readSimpleString
        else if Ascii.eqb typeByte "-" then readError
        else if Ascii.eqb typeByte ":" then readInteger
        else if Ascii.eqb typeByte "$" then readBulkString
        else if Ascii.eqb typeByte "*" then readArray (Read_fuel (S fuel))
        else fail (ErrUnknownType typeByte))).
  cbn [Read_fuel].
  apply refines_bind; [apply refines_refl|]. intros typeByte rest.
  repeat (match goal with |- context [if ?b then _ else _] => destruct b end;
          try apply refines_refl).
  apply readArray_refines, IH.
Qed.

Lemma Read_fuel_stable (fuel fuel' : nat) (s : string) :
  (fuel <= fuel')%nat -> refines (Read_fuel fuel s) (Read_fuel fuel' s).
Proof.
  intros Hle. induction Hle as [|fuel' _ IH]; [apply refines_refl|].
  destruct IH as [E | E]; [now left|].
  rewrite E. apply Read_fuel_refines.
Qed.

(** What [Read_fuel] returns with some fuel, [Read] returns. *)
Lemma Read_of_fuel (fuel : nat) (s : string) (v : Value) (rest : string) :
  Read_fuel fuel s = Ok v rest -> Read s = Ok v rest.
Proof.
  intros H. unfold Read.
  destruct (Nat.le_ge_cases fuel (S (String.length s))) as [Hle | Hge].
  - destruct (Read_fuel_stable _ _ s Hle) as [E | E]; congruence.
  - pose proof (Read_fuel_settled (S (String.length s)) s ltac:(lia)) as Hs.
    destruct (Read_fuel_stable _ _ s Hge) as [E | E].
    + rewrite E in Hs. contradiction.
    + congruence.
Qed.

End Fuel.

(** ** Decoding what the writer encoded *)

Section RoundTrip.

(** Induction on [constructible] that reaches the elements of an Array. *)
Lemma constructible_induction (P : Value -> Prop) :
  (forall s, P (NewSimpleString s)) ->
  (forall s, P (NewError s)) ->
  (forall n, minInt <= n <= maxInt -> P (NewInteger n)) ->
  (forall s, Z.of_nat (String.length s) <= maxInt -> P (NewBulkString s)) ->
  P NewNullBulkString ->
  (forall arr, Z.of_nat (length arr) <= maxInt ->
               Forall constructible arr -> Forall P arr -> P (NewArray arr)) ->
  P NewNullArray ->
  forall v, constructible v -> P v.
Proof.
  intros Hs He Hi Hb Hnb Ha Hna.
  fix IH 2. intros v Hv. destruct Hv as [s|s|n Hn|s Hlen| |arr Hlen Harr|].
  - apply Hs.
  - apply He.
  - apply Hi, Hn.
  - apply Hb, Hlen.
  - apply Hnb.
  - apply Ha; [exact Hlen | exact Harr |].
    clear Hlen. revert arr Harr. fix IHarr 2. intros arr Harr.
    destruct Harr as [|x l Hx Hl]; constructor.
    + apply IH, Hx.
    + apply IHarr, Hl.
  - apply Hna.
Qed.

Lemma reads_back_SimpleString (s : string) :
  has_byte LF s = false -> reads_back (NewSimpleString s).
Proof.
  intros Hs. split; [reflexivity|].
  intros [|fuel] rest Hd; [simpl in Hd; lia|].
  change (encode (NewSimpleString s)) with (String "+" (s ++ CRLF)).
  rewrite append_cons, append_assoc. cbn [Read_fuel].
  unfold bind at 1. cbn [ReadByte]. cbn [Ascii.eqb Bool.eqb].
  unfold readSimpleString, bind. now rewrite readLine_framed.
Qed.

Lemma reads_back_Error (s : string) :
  has_byte LF s = false -> reads_back (NewError s).
Proof.
  intros Hs. split; [reflexivity|].
  intros [|fuel] rest Hd; [simpl in Hd; lia|].
  change (encode (NewError s)) with (String "-" (s ++ CRLF)).
  rewrite append_cons, append_assoc. cbn [Read_fuel].
  unfold bind at 1. cbn [ReadByte]. cbn [Ascii.eqb Bool.eqb].
  unfold readError, bind. now rewrite readLine_framed.
Qed.

Lemma reads_back_Integer (n : Z) :
  minInt <= n <= maxInt -> reads_back (NewInteger n).
Proof.
  intros Hn. split; [reflexivity|].
  intros [|fuel] rest Hd; [simpl in Hd; lia|].
  change (encode (NewInteger n)) with (String ":" (Itoa n ++ CRLF)).
  rewrite append_cons, append_assoc. cbn [Read_fuel].
  unfold bind at 1. cbn [ReadByte]. cbn [Ascii.eqb Bool.eqb].
  unfold readInteger, bind. rewrite readLine_framed by apply Itoa_no_LF.
  now rewrite Atoi_Itoa.
Qed.

Lemma length_nonneg_in_range (n : nat) :
  Z.of_nat n <= maxInt -> minInt <= Z.of_nat n <= maxInt.
Proof. unfold minInt. lia. Qed.

Lemma reads_back_BulkString (s : string) :
  Z.of_nat (String.length s) <= maxInt -> reads_back (NewBulkString s).
Proof.
  intros Hlen. split; [reflexivity|].
  intros [|fuel] rest Hd; [simpl in Hd; lia|].
  change (encode (NewBulkString s))
    with (String "$" (Itoa (Z.of_nat (String.length s)) ++ CRLF ++ s ++ CRLF)).
  rewrite append_cons, !append_assoc. cbn [Read_fuel].
  unfold bind at 1. cbn [ReadByte]. cbn [Ascii.eqb Bool.eqb].
  unfold readBulkString. unfold bind at 1.
  rewrite readLine_framed by apply Itoa_no_LF.
  rewrite Itoa_nonneg_not_minus_one by lia.
  rewrite Atoi_Itoa by now apply length_nonneg_in_range.
  unfold bind, make.
  destruct (Z.ltb_spec (Z.of_nat (String.length s)) 0); [lia|].
  rewrite Nat2Z.id, ReadFull_exact. reflexivity.
Qed.

Lemma reads_back_elements (arr : list Value) :
  Forall reads_back arr ->
  snd (writeElements Write arr) = true /\
  forall (fuel : nat) (rest : string),
    (list_max (map depth arr) <= fuel)%nat ->
    readElements (Read_fuel fuel) (length arr)
      (fst (writeElements Write arr) ++ rest) = Ok arr rest.
Proof.
  induction 1 as [|v arr [Hok Hv] _ [IHok IH]]; [split; reflexivity|].
  cbn [writeElements]. unfold encode in Hv.
  destruct (Write v) as [out ok]. simpl in Hok, Hv. subst ok.
  destruct (writeElements Write arr) as [out' ok']. simpl in IHok, IH. subst ok'.
  split; [reflexivity|].
  intros fuel rest Hd. cbn [map list_max fold_right] in Hd.
  cbn [fst length readElements]. rewrite append_assoc.
  unfold bind. rewrite Hv by lia.
  change (fold_right Init.Nat.max 0%nat (map depth arr))
    with (list_max (map depth arr)) in Hd.
  rewrite IH by lia. reflexivity.
Qed.

Lemma reads_back_Array (arr : list Value) :
  Z.of_nat (length arr) <= maxInt ->
  Forall reads_back arr -> reads_back (NewArray arr).
Proof.
  intros Hlen Harr. destruct (reads_back_elements arr Harr) as [Hok Hread].
  unfold reads_back, encode.
  change (Write (NewArray arr)) with (writeArray Write arr).
  unfold writeArray. destruct (writeElements Write arr) as [out ok].
  simpl in Hok, Hread. subst ok. split; [reflexivity|].
  intros [|fuel] rest Hd; [simpl in Hd; lia|].
  cbn [fst]. rewrite !append_assoc, append_cons, append_nil. cbn [Read_fuel].
  unfold bind at 1. cbn [ReadByte]. cbn [Ascii.eqb Bool.eqb].
  unfold readArray. unfold bind at 1.
  rewrite readLine_framed by apply Itoa_no_LF.
  rewrite Itoa_nonneg_not_minus_one by lia.
  rewrite Atoi_Itoa by now apply length_nonneg_in_range.
  unfold bind, make.
  destruct (Z.ltb_spec (Z.of_nat (length arr)) 0); [lia|].
  rewrite Nat2Z.id, Hread; [reflexivity|].
  simpl in Hd. lia.
Qed.

Lemma reads_back_constructible (v : Value) :
  constructible v -> single_line v = true -> reads_back v.
Proof.
  intros Hv. induction Hv as [s|s|n Hn|s Hlen| |arr Hlen Harr IH|]
    using constructible_induction; intros Hline.
  - apply reads_back_SimpleString. simpl in Hline.
    destruct (has_byte LF s); [discriminate | reflexivity].
  - apply reads_back_Error. simpl in Hline.
    destruct (has_byte LF s); [discriminate | reflexivity].
  - now apply reads_back_Integer.
  - now apply reads_back_BulkString.
  - split; [reflexivity|]. intros [|fuel] rest Hd; [simpl in Hd; lia|]. reflexivity.
  - apply reads_back_Array; [exact Hlen|].
    simpl in Hline. pose proof (proj1 (forallb_forall _ _) Hline) as Hall.
    rewrite Forall_forall in IH |- *. intros x Hx.
    apply IH; [exact Hx|]. apply Hall. now apply list_elem_of_In.
  - split; [reflexivity|]. intros [|fuel] rest Hd; [simpl in Hd; lia|]. reflexivity.
Qed.

End RoundTrip.

(** ** The codec: round trip, negative lengths, the unchecked trailer *)

(** C1 (as amended). For every constructible Protocol Value [v] whose
    SimpleString and Error texts, at every nesting depth, contain no
    line-feed byte, the writer succeeds and [Read] applied to the bytes
    [Write] produced returns [v] again, leaving exactly the bytes that
    followed them in the stream; the null forms are read back as well. *)
Theorem read_write_roundtrip (v : Value) :
  constructible v ->
  single_line v = true ->
  snd (Write v) = true /\
  Read (encode v) = Ok v "" /\
  forall rest : string, Read (encode v ++ rest) = Ok v rest.
Proof.
  intros Hv Hline.
  destruct (reads_back_constructible v Hv Hline) as [Hok Hread].
  assert (H : forall rest, Read (encode v ++ rest) = Ok v rest).
  { intros rest. apply (Read_of_fuel (depth v)), Hread. lia. }
  repeat split; [exact Hok | | exact H].
  rewrite <- (append_empty_r (encode v)). apply H.
Qed.

Lemma read_write_roundtrip_witness :
  Read (encode sample_reply) = Ok sample_reply "".
Proof.
  apply (read_write_roundtrip sample_reply); [|reflexivity].
  unfold sample_reply.
  repeat first
    [ apply constructible_Array; [vm_compute; discriminate|]
    | apply constructible_Integer; vm_compute; split; discriminate
    | apply constructible_BulkString; vm_compute; discriminate
    | apply constructible_SimpleString
    | apply constructible_Error
    | apply constructible_NullBulkString
    | apply constructible_NullArray
    | apply Forall_cons_2
    | apply Forall_nil_2 ].
Defined.

(** C1 (as stated) fails: a SimpleString whose text holds a line feed is
    constructible and is not a null form, but the reader cuts its text at
    the line feed and leaves the remainder in the stream. *)
Lemma roundtrip_line_feed_counterexample :
  let v := NewSimpleString (String "a" (String LF "b")) in
  constructible v /\ not_null_form v /\
  Read (encode v) = Ok (NewSimpleString (String "a" (String LF ""))) ("b" ++ CRLF) /\
  Read (encode v) <> Ok v "".
Proof.
  cbv zeta. split; [constructor|]. split; [split; discriminate|].
  split; [reflexivity | discriminate].
Qed.

(** C2 (fails on the code). A BulkString or Array frame that declares
    the length -2 or -5 makes [Read] panic in [make] instead of returning
    a decode error. *)
Theorem Read_negative_length_panics :
  Read ("$-2" ++ CRLF) = Panic /\ Read ("*-5" ++ CRLF) = Panic.
Proof. split; reflexivity. Qed.

(** C9. After the declared payload bytes of a non-null BulkString frame
    the reader drops the next two bytes whatever they are: the frame
    decodes to the BulkString of its payload, and for a 5-byte payload
    the input "$5\r\n<payload>XY" decodes to it. *)
Theorem bulk_trailer_unchecked (payload : string) (x y : ascii) (rest : string) :
  Z.of_nat (String.length payload) <= maxInt ->
  Read ("$" ++ Itoa (Z.of_nat (String.length payload)) ++ CRLF ++
        payload ++ String x (String y rest))
  = Ok (NewBulkString payload) rest /\
  (String.length payload = 5%nat ->
   Read ("$5" ++ CRLF ++ payload ++ "XY") = Ok (NewBulkString payload) "").
Proof.
  intros Hlen.
  assert (H : forall x y rest,
    Read ("$" ++ Itoa (Z.of_nat (String.length payload)) ++ CRLF ++
          payload ++ String x (String y rest))
    = Ok (NewBulkString payload) rest).
  { clear x y rest. intros x y rest. apply (Read_of_fuel 1).
    rewrite append_cons, append_nil. cbn [Read_fuel].
    unfold bind at 1. cbn [ReadByte]. cbn [Ascii.eqb Bool.eqb].
    unfold readBulkString. unfold bind at 1.
    rewrite readLine_framed by apply Itoa_no_LF.
    rewrite Itoa_nonneg_not_minus_one by lia.
    rewrite Atoi_Itoa by now apply length_nonneg_in_range.
    unfold bind, make.
    destruct (Z.ltb_spec (Z.of_nat (String.length payload)) 0); [lia|].
    rewrite Nat2Z.id, ReadFull_exact. reflexivity. }
  split; [apply H|].
  intros E. specialize (H "X"%char "Y"%char ""). rewrite E in H. exact H.
Qed.

Lemma bulk_trailer_unchecked_witness :
  Read ("$5" ++ CRLF ++ "helloXY") = Ok (NewBulkString "hello") ""
  /\ Read ("$5" ++ CRLF ++ "hello" ++ CRLF) = Ok (NewBulkString "hello") "".
Proof.
  assert (Hlen : Z.of_nat (String.length "hello") <= maxInt)
    by (vm_compute; discriminate).
  split.
  - exact (proj2 (bulk_trailer_unchecked "hello" "X" "Y" "" Hlen) eq_refl).
  - exact (proj1 (bulk_trailer_unchecked "hello" CR LF "" Hlen)).
Defined.

(** ** The command engine *)

Section Dispatch.

Implicit Types (db : gmap string RedisValue) (now : Z) (k : string).

(** Dispatch of a request made of BulkStrings goes to the handler of its
    first word, with the other words as arguments. *)
Lemma processCommand_SET now k v db :
  processCommand now (request ["SET"; k; v]) db
  = Done (NewSimpleString "OK") (<[k := NewStringValue v]> db).
Proof. reflexivity. Qed.

Lemma processCommand_GET now k db :
  processCommand now (request ["GET"; k]) db = handleGet now [NewBulkString k] db.
Proof. reflexivity. Qed.

Lemma processCommand_LPUSH now k (vs : list string) db :
  processCommand now (request ("LPUSH" :: k :: vs)) db
  = handleLPush now (NewBulkString k :: map NewBulkString vs) db.
Proof. reflexivity. Qed.

Lemma processCommand_RPUSH now k (vs : list string) db :
  processCommand now (request ("RPUSH" :: k :: vs)) db
  = handleRPush now (NewBulkString k :: map NewBulkString vs) db.
Proof. reflexivity. Qed.

Lemma processCommand_LPOP now k db :
  processCommand now (request ["LPOP"; k]) db = handleLPop now [NewBulkString k] db.
Proof. reflexivity. Qed.

Lemma processCommand_RPOP now k db :
  processCommand now (request ["RPOP"; k]) db = handleRPop now [NewBulkString k] db.
Proof. reflexivity. Qed.

Lemma processCommand_LLEN now k db :
  processCommand now (request ["LLEN"; k]) db = handleLLen now [NewBulkString k] db.
Proof. reflexivity. Qed.

Lemma processCommand_TYPE now k db :
  processCommand now (request ["TYPE"; k]) db = handleType now [NewBulkString k] db.
Proof. reflexivity. Qed.

(** What [GetValue] finds: nothing for an absent or expired key (the
    expired entry is deleted), the entry otherwise. *)
Lemma GetValue_absent now k db :
  db !! k = None -> Database_GetValue now k db = Done None db.
Proof. intros H. unfold Database_GetValue. now rewrite H. Qed.

Lemma GetValue_expired now k db (rv : RedisValue) :
  db !! k = Some rv -> IsExpired now rv = true ->
  Database_GetValue now k db = Done None (delete k db).
Proof. intros H E. unfold Database_GetValue. now rewrite H, E. Qed.

Lemma GetValue_live now k db (rv : RedisValue) :
  db !! k = Some rv -> IsExpired now rv = false ->
  Database_GetValue now k db = Done (Some rv) db.
Proof. intros H E. unfold Database_GetValue. now rewrite H, E. Qed.

Lemma IsExpired_past now (rv : RedisValue) (t : Z) :
  ExpiresAt rv = Some t -> t < now -> IsExpired now rv = true.
Proof. intros E H. unfold IsExpired. rewrite E. now apply Z.ltb_lt. Qed.

End Dispatch.

(** C4. After [SET k v], [LPUSH k x] is answered with an Error whose
    text contains "WRONGTYPE"; the store still maps [k] to the String
    entry holding [v] and is not changed by the failed command. *)
Theorem set_then_lpush_wrongtype
    (now1 now2 : Z) (db : gmap string RedisValue) (k v x : string) :
  exists (db1 : gmap string RedisValue) (reply : Value),
    processCommand now1 (request ["SET"; k; v]) db
      = Done (NewSimpleString "OK") db1 /\
    processCommand now2 (request ["LPUSH"; k; x]) db1 = Done reply db1 /\
    resp.Type_ reply = ERROR /\
    Contains (Str reply) "WRONGTYPE" = true /\
    db1 !! k = Some (NewStringValue v).
Proof.
  exists (<[k := NewStringValue v]> db), (NewError WRONGTYPE).
  split; [apply processCommand_SET|].
  split; [|split; [reflexivity|split; [reflexivity|apply lookup_insert_eq]]].
  rewrite processCommand_LPUSH. unfold handleLPush. cbn [length map Nat.ltb Nat.leb].
  unfold cbind at 1. cbn [index lookup list_lookup Bulk NewBulkString].
  unfold cbind.
  rewrite (GetValue_live now2 k _ (NewStringValue v));
    [reflexivity | apply lookup_insert_eq | reflexivity].
Qed.

(** C5. A key whose entry carries an expiration instant earlier than the
    current time is absent for GET (null BulkString), TYPE ("none") and
    LLEN (0), and each of these accesses removes the key from the map. *)
Theorem expired_key_is_absent
    (now t : Z) (db : gmap string RedisValue) (k : string) (rv : RedisValue) :
  db !! k = Some rv ->
  ExpiresAt rv = Some t ->
  t < now ->
  processCommand now (request ["GET"; k]) db
    = Done NewNullBulkString (delete k db) /\
  processCommand now (request ["TYPE"; k]) db
    = Done (NewSimpleString "none") (delete k db) /\
  processCommand now (request ["LLEN"; k]) db
    = Done (NewInteger 0) (delete k db) /\
  delete k db !! k = None.
Proof.
  intros Hk Hexp Hlt.
  pose proof (IsExpired_past now rv t Hexp Hlt) as Hx.
  repeat split.
  - rewrite processCommand_GET. unfold handleGet, cbind, index, Database_Get.
    cbn [length Nat.eqb negb lookup list_lookup Bulk NewBulkString].
    now rewrite Hk, Hx.
  - rewrite processCommand_TYPE. unfold handleType, cbind, index.
    cbn [length Nat.eqb negb lookup list_lookup Bulk NewBulkString].
    now rewrite (GetValue_expired now k db rv Hk Hx).
  - rewrite processCommand_LLEN. unfold handleLLen, cbind, index.
    cbn [length Nat.eqb negb lookup list_lookup Bulk NewBulkString].
    now rewrite (GetValue_expired now k db rv Hk Hx).
  - apply lookup_delete_eq.
Qed.

Lemma expired_key_is_absent_witness :
  let db : gmap string RedisValue := {[ "session" := stale_list ]} in
  processCommand 10 (request ["GET"; "session"]) db = Done NewNullBulkString ∅ /\
  processCommand 10 (request ["TYPE"; "session"]) db
    = Done (NewSimpleString "none") ∅ /\
  processCommand 10 (request ["LLEN"; "session"]) db = Done (NewInteger 0) ∅.
Proof.
  cbv zeta.
  destruct (expired_key_is_absent 10 5 {[ "session" := stale_list ]}
              "session" stale_list)
    as (Hget & Htype & Hllen & _);
    [apply lookup_singleton_eq | reflexivity | lia |].
  rewrite delete_singleton_eq in Hget, Htype, Hllen.
  repeat split; assumption.
Defined.

(** ** Lists: pushes and pops *)

Section Lists.

Implicit Types (db : gmap string RedisValue) (now : Z) (k : string)
  (rv : RedisValue) (vs : list string).

Lemma set_List_set_List rv (l l' : list string) :
  set_List (set_List rv l) l' = set_List rv l'.
Proof. reflexivity. Qed.

Lemma set_List_id rv : set_List rv (List_ rv) = rv.
Proof. now destruct rv. Qed.

Lemma ListPush_list rv (value : string) (left : bool) :
  server.Type_ rv = "list" ->
  fst (ListPush rv value left)
  = set_List rv (if left then value :: List_ rv else List_ rv ++ [value])%list.
Proof. intros E. unfold ListPush. rewrite E. now destruct left. Qed.

(** The loop of a push handler over the values [vs] that follow the key:
    a left push ends with them reversed in front of the list, a right push
    with them in order behind it. *)
Lemma pushAll_list rv (a0 : Value) vs (left : bool) :
  server.Type_ rv = "list" ->
  pushAll rv (a0 :: map NewBulkString vs) left
  = set_List rv (if left then rev vs ++ List_ rv else List_ rv ++ vs)%list.
Proof.
  unfold pushAll.
  change (drop 1 (a0 :: map NewBulkString vs)) with (map NewBulkString vs).
  revert rv.
  induction vs as [|v vs IH]; intros rv E.
  - cbn [map fold_left rev]. destruct left; cbn [app];
      rewrite ?app_nil_r; now rewrite set_List_id.
  - cbn [map fold_left]. rewrite ListPush_list by exact E.
    cbn [Bulk NewBulkString]. rewrite IH by exact E.
    rewrite set_List_set_List. destruct left; simpl.
    + now rewrite <- app_assoc.
    + now rewrite <- app_assoc.
Qed.

Lemma ListLength_list rv (l : list string) :
  server.Type_ rv = "list" -> ListLength (set_List rv l) = Z.of_nat (length l).
Proof. intros E. unfold ListLength. cbn [server.Type_ set_List List_]. now rewrite E. Qed.

Lemma two_args_or_more (a0 : Value) vs :
  vs <> [] -> (length (a0 :: map NewBulkString vs) <? 2)%nat = false.
Proof.
  intros H. destruct vs as [|v vs]; [congruence|]. reflexivity.
Qed.

(** A push on an absent key creates the list and fills it. *)
Lemma push_absent (left : bool) now k vs db :
  vs <> [] -> db !! k = None ->
  (if left then handleLPush else handleRPush) now
    (NewBulkString k :: map NewBulkString vs) db
  = Done (NewInteger (Z.of_nat (length vs)))
         (<[k := set_List NewListValue (if left then rev vs else vs)]> db).
Proof.
  intros Hvs Hk.
  assert (E : forall b, pushAndReply k NewListValue
                (NewBulkString k :: map NewBulkString vs) b
                (<[k := NewListValue]> db)
              = Done (NewInteger (Z.of_nat (length (if b then rev vs else vs))))
                  (<[k := set_List NewListValue (if b then rev vs else vs)]> db)).
  { intros b. unfold pushAndReply, cbind, write_back, cret.
    rewrite pushAll_list by reflexivity. rewrite ListLength_list by reflexivity.
    rewrite insert_insert_eq. cbn [List_ NewListValue].
    destruct b; cbn [app]; now rewrite ?app_nil_r. }
  destruct left; unfold handleLPush, handleRPush;
    rewrite two_args_or_more by exact Hvs;
    unfold cbind at 1; cbn [index lookup list_lookup Bulk NewBulkString];
    unfold cbind at 1; rewrite (GetValue_absent now k db Hk);
    unfold cbind at 1; cbn [Database_SetValue];
    rewrite E; now rewrite ?length_rev.
Qed.

(** A push on a live list extends it. *)
Lemma push_list (left : bool) now k vs db rv :
  vs <> [] -> db !! k = Some rv -> IsExpired now rv = false ->
  server.Type_ rv = "list" ->
  (if left then handleLPush else handleRPush) now
    (NewBulkString k :: map NewBulkString vs) db
  = Done (NewInteger (Z.of_nat (length vs + length (List_ rv))))
         (<[k := set_List rv
                   (if left then rev vs ++ List_ rv else List_ rv ++ vs)%list]> db).
Proof.
  intros Hvs Hk Hlive Hty.
  destruct left; unfold handleLPush, handleRPush;
    rewrite two_args_or_more by exact Hvs;
    unfold cbind at 1; cbn [index lookup list_lookup Bulk NewBulkString];
    unfold cbind at 1; rewrite (GetValue_live now k db rv Hk Hlive);
    rewrite Hty; cbn [String.eqb Ascii.eqb Bool.eqb negb];
    unfold pushAndReply, cbind, write_back, cret;
    rewrite pushAll_list by exact Hty; rewrite ListLength_list by exact Hty;
    rewrite length_app, ?length_rev; do 3 f_equal; lia.
Qed.

(** A pop on a live list with one element returns it and deletes the key. *)
Lemma pop_singleton (left : bool) now k db rv (x : string) :
  db !! k = Some rv -> IsExpired now rv = false ->
  server.Type_ rv = "list" -> List_ rv = [x] ->
  (if left then handleLPop else handleRPop) now [NewBulkString k] db
  = Done (NewBulkString x) (delete k db).
Proof.
  intros Hk Hlive Hty Hl.
  assert (E : forall b, popAndReply k rv b db = Done (NewBulkString x) (delete k db)).
  { intros b. unfold popAndReply, ListPop. rewrite Hty, Hl.
    cbn [String.eqb Ascii.eqb Bool.eqb negb length Nat.eqb orb].
    destruct b; cbn [hd List.last skipn firstn Nat.sub negb];
      unfold cbind, write_back, cret;
      rewrite ListLength_list by exact Hty; cbn [length];
      change (Z.of_nat 0 =? 0)%Z with true; cbv beta iota;
      unfold Database_Del; rewrite lookup_insert_eq;
      now rewrite delete_insert_eq. }
  destruct left; unfold handleLPop, handleRPop;
    cbn [length Nat.eqb negb];
    unfold cbind at 1; cbn [index lookup list_lookup Bulk NewBulkString];
    unfold cbind at 1; rewrite (GetValue_live now k db rv Hk Hlive);
    rewrite Hty; cbn [String.eqb Ascii.eqb Bool.eqb negb]; apply E.
Qed.

Lemma one_key_absent now k db :
  db !! k = None ->
  handleLLen now [NewBulkString k] db = Done (NewInteger 0) db /\
  handleType now [NewBulkString k] db = Done (NewSimpleString "none") db.
Proof.
  intros Hk. unfold handleLLen, handleType, cbind, index.
  cbn [length Nat.eqb negb lookup list_lookup Bulk NewBulkString].
  now rewrite (GetValue_absent now k db Hk).
Qed.

End Lists.

(** C6. On an absent key, [LPUSH k a] then [LPUSH k b] leave the list
    [b; a] and [RPUSH k a] then [RPUSH k b] leave [a; b].  A push of
    several values takes them in argument order (a left push ends with
    them reversed at the head, a right push with them in order at the
    tail), creates the list when the key is absent, and replies with the
    Integer length of the resulting list. *)
Theorem push_order (now1 now2 : Z) (db : gmap string RedisValue) (k : string) :
  (db !! k = None ->
   forall a b : string,
     (exists (db1 db2 : gmap string RedisValue) (rv : RedisValue),
        processCommand now1 (request ["LPUSH"; k; a]) db = Done (NewInteger 1) db1 /\
        processCommand now2 (request ["LPUSH"; k; b]) db1 = Done (NewInteger 2) db2 /\
        db2 !! k = Some rv /\ server.Type_ rv = "list" /\ List_ rv = [b; a]) /\
     (exists (db1 db2 : gmap string RedisValue) (rv : RedisValue),
        processCommand now1 (request ["RPUSH"; k; a]) db = Done (NewInteger 1) db1 /\
        processCommand now2 (request ["RPUSH"; k; b]) db1 = Done (NewInteger 2) db2 /\
        db2 !! k = Some rv /\ server.Type_ rv = "list" /\ List_ rv = [a; b])) /\
  (forall vs : list string,
     vs <> [] -> db !! k = None ->
     processCommand now1 (request ("LPUSH" :: k :: vs)) db
       = Done (NewInteger (Z.of_nat (length vs)))
              (<[k := set_List NewListValue (rev vs)]> db) /\
     processCommand now1 (request ("RPUSH" :: k :: vs)) db
       = Done (NewInteger (Z.of_nat (length vs)))
              (<[k := set_List NewListValue vs]> db)) /\
  (forall (vs : list string) (rv : RedisValue),
     vs <> [] -> db !! k = Some rv -> IsExpired now1 rv = false ->
     server.Type_ rv = "list" ->
     processCommand now1 (request ("LPUSH" :: k :: vs)) db
       = Done (NewInteger (Z.of_nat (length vs + length (List_ rv))))
              (<[k := set_List rv (rev vs ++ List_ rv)]> db) /\
     processCommand now1 (request ("RPUSH" :: k :: vs)) db
       = Done (NewInteger (Z.of_nat (length vs + length (List_ rv))))
              (<[k := set_List rv (List_ rv ++ vs)]> db)).
Proof.
  split; [|split].
  - intros Hk a b. split.
    + exists (<[k := set_List NewListValue [a]]> db).
      eexists. exists (set_List NewListValue [b; a]).
      split; [rewrite processCommand_LPUSH;
              apply (push_absent true now1 k [a] db); [discriminate | exact Hk]|].
      split; [rewrite processCommand_LPUSH;
              apply (push_list true now2 k [b] _ (set_List NewListValue [a]));
              [discriminate | apply lookup_insert_eq | reflexivity | reflexivity]|].
      split; [apply lookup_insert_eq|]. split; reflexivity.
    + exists (<[k := set_List NewListValue [a]]> db).
      eexists. exists (set_List NewListValue [a; b]).
      split; [rewrite processCommand_RPUSH;
              apply (push_absent false now1 k [a] db); [discriminate | exact Hk]|].
      split; [rewrite processCommand_RPUSH;
              apply (push_list false now2 k [b] _ (set_List NewListValue [a]));
              [discriminate | apply lookup_insert_eq | reflexivity | reflexivity]|].
      split; [apply lookup_insert_eq|]. split; reflexivity.
  - intros vs Hvs Hk. split.
    + rewrite processCommand_LPUSH. now apply (push_absent true).
    + rewrite processCommand_RPUSH. now apply (push_absent false).
  - intros vs rv Hvs Hk Hlive Hty. split.
    + rewrite processCommand_LPUSH. now apply (push_list true).
    + rewrite processCommand_RPUSH. now apply (push_list false).
Qed.

Lemma push_order_witness :
  (exists (db1 db2 : gmap string RedisValue) (rv : RedisValue),
     processCommand 0 (request ["LPUSH"; "mylist"; "world"]) ∅
       = Done (NewInteger 1) db1 /\
     processCommand 1 (request ["LPUSH"; "mylist"; "hello"]) db1
       = Done (NewInteger 2) db2 /\
     db2 !! "mylist" = Some rv /\ server.Type_ rv = "list" /\
     List_ rv = ["hello"; "world"]) /\
  processCommand 0 (request ["RPUSH"; "mylist"; "from"; "Go!"]) ∅
    = Done (NewInteger 2) {[ "mylist" := set_List NewListValue ["from"; "Go!"] ]}.
Proof.
  destruct (push_order 0 1 ∅ "mylist") as (Hfresh & Hmany & _).
  split.
  - exact (proj1 (Hfresh (lookup_empty _) "world" "hello")).
  - refine (proj2 (Hmany ["from"; "Go!"] _ (lookup_empty _))). discriminate.
Defined.

(** C7. From a store where [k] is absent, [RPUSH k a] then [LPOP k] (or
    [RPOP k]) returns [a] and leaves the store as it was before the
    push, without [k]: [LLEN k] is then Integer 0 and [TYPE k] is
    SimpleString "none". *)
Theorem pop_emptying_list_removes_key
    (now1 now2 now3 now4 : Z) (db : gmap string RedisValue) (k a : string) :
  db !! k = None ->
  exists db1 : gmap string RedisValue,
    processCommand now1 (request ["RPUSH"; k; a]) db = Done (NewInteger 1) db1 /\
    processCommand now2 (request ["LPOP"; k]) db1 = Done (NewBulkString a) db /\
    processCommand now2 (request ["RPOP"; k]) db1 = Done (NewBulkString a) db /\
    processCommand now3 (request ["LLEN"; k]) db = Done (NewInteger 0) db /\
    processCommand now4 (request ["TYPE"; k]) db = Done (NewSimpleString "none") db /\
    db !! k = None.
Proof.
  intros Hk. exists (<[k := set_List NewListValue [a]]> db).
  assert (Hpop : forall left : bool,
    (if left then handleLPop else handleRPop) now2 [NewBulkString k]
      (<[k := set_List NewListValue [a]]> db) = Done (NewBulkString a) db).
  { intros left.
    rewrite (pop_singleton left now2 k _ (set_List NewListValue [a]) a);
      [|apply lookup_insert_eq | reflexivity | reflexivity | reflexivity].
    now rewrite delete_insert_eq, delete_id. }
  split; [rewrite processCommand_RPUSH;
          apply (push_absent false now1 k [a] db); [discriminate | exact Hk]|].
  split; [rewrite processCommand_LPOP; apply (Hpop true)|].
  split; [rewrite processCommand_RPOP; apply (Hpop false)|].
  split; [rewrite processCommand_LLEN; now apply one_key_absent|].
  split; [rewrite processCommand_TYPE; now apply one_key_absent|].
  exact Hk.
Qed.

Lemma pop_emptying_list_removes_key_witness :
  exists db1 : gmap string RedisValue,
    processCommand 0 (request ["RPUSH"; "k"; "a"]) ∅ = Done (NewInteger 1) db1 /\
    processCommand 1 (request ["LPOP"; "k"]) db1 = Done (NewBulkString "a") ∅ /\
    processCommand 1 (request ["RPOP"; "k"]) db1 = Done (NewBulkString "a") ∅ /\
    processCommand 2 (request ["LLEN"; "k"]) ∅ = Done (NewInteger 0) ∅ /\
    processCommand 3 (request ["TYPE"; "k"]) ∅ = Done (NewSimpleString "none") ∅ /\
    (∅ : gmap string RedisValue) !! "k" = None.
Proof.
  exact (pop_emptying_list_removes_key 0 1 2 3 ∅ "k" "a" (lookup_empty _)).
Defined.

(** ** Every command returns, and keeps the store well-formed *)

Section Safety.

Implicit Types (db : gmap string RedisValue) (now : Z) (key : string)
  (args : list Value) (rv val : RedisValue).

Lemma safe_cret {A} (a : A) : safe (cret a).
Proof. intros db. exists a, db. split; [reflexivity | tauto]. Qed.

Lemma safe_cbind {A B} (c : Cmd A) (k : A -> Cmd B) :
  safe c -> (forall a, safe (k a)) -> safe (cbind c k).
Proof.
  intros Hc Hk db. destruct (Hc db) as (a & db1 & E1 & H1).
  destruct (Hk a db1) as (b & db2 & E2 & H2).
  exists b, db2. unfold cbind. rewrite E1. split; [exact E2 | tauto].
Qed.

Lemma safe_index_head {A} (x : A) (l : list A) : safe (index (x :: l) 0).
Proof. apply safe_cret. Qed.

Lemma safe_index_second {A} (x y : A) (l : list A) : safe (index (x :: y :: l) 1).
Proof. apply safe_cret. Qed.

Lemma store_ok_insert key rv db :
  entry_ok rv -> store_ok db -> store_ok (<[key := rv]> db).
Proof. intros Hrv Hdb. now apply map_Forall_insert_2. Qed.

Lemma store_ok_delete key db : store_ok db -> store_ok (delete key db).
Proof. apply map_Forall_delete. Qed.

Lemma store_ok_lookup key rv db : store_ok db -> db !! key = Some rv -> entry_ok rv.
Proof. intros Hdb Hk. exact (Hdb key rv Hk). Qed.

Lemma safe_Set key (value : string) : safe (Database_Set key value).
Proof.
  intros db. eexists _, _. split; [reflexivity|].
  apply store_ok_insert. now left.
Qed.

Lemma safe_Get now key : safe (Database_Get now key).
Proof.
  intros db. unfold Database_Get.
  destruct (db !! key) as [val|]; [|eexists _, _; split; [reflexivity | tauto]].
  destruct (IsExpired now val);
    [eexists _, _; split; [reflexivity | apply store_ok_delete]|].
  destruct (negb _); eexists _, _; (split; [reflexivity | tauto]).
Qed.

Lemma safe_Del key : safe (Database_Del key).
Proof.
  intros db. unfold Database_Del.
  destruct (db !! key); eexists _, _; (split; [reflexivity|]);
    [apply store_ok_delete | tauto].
Qed.

(** [GetValue] returns; what it finds is an entry of the store it leaves. *)
Lemma GetValue_cases now key db :
  exists (found : option RedisValue) (db1 : gmap string RedisValue),
    Database_GetValue now key db = Done found db1 /\
    (store_ok db -> store_ok db1) /\
    (forall val, found = Some val -> db1 !! key = Some val).
Proof.
  unfold Database_GetValue. destruct (db !! key) as [val|] eqn:E.
  - destruct (IsExpired now val).
    + eexists _, _. split; [reflexivity|].
      split; [apply store_ok_delete | discriminate].
    + eexists _, _. split; [reflexivity|]. split; [tauto|]. congruence.
  - eexists _, _. split; [reflexivity|]. split; [tauto | discriminate].
Qed.

(** The loop of a push handler, for any arguments. *)
Lemma pushAll_any rv args (left : bool) :
  server.Type_ rv = "list" ->
  pushAll rv args left
  = set_List rv (if left then rev (map Bulk (drop 1 args)) ++ List_ rv
                 else List_ rv ++ map Bulk (drop 1 args))%list.
Proof.
  unfold pushAll. generalize (drop 1 args) as l. intros l. revert rv.
  induction l as [|a l IH]; intros rv E.
  - cbn [map fold_left rev]. destruct left; cbn [app];
      rewrite ?app_nil_r; now rewrite set_List_id.
  - cbn [map fold_left]. rewrite ListPush_list by exact E.
    rewrite IH by exact E. rewrite set_List_set_List. destruct left; simpl.
    + now rewrite <- app_assoc.
    + now rewrite <- app_assoc.
Qed.

Lemma pushAll_entry_ok rv (a0 a1 : Value) args (left : bool) :
  server.Type_ rv = "list" -> entry_ok (pushAll rv (a0 :: a1 :: args) left).
Proof.
  intros E. rewrite pushAll_any by exact E. right.
  split; [exact E|]. cbn [set_List List_].
  change (drop 1 (a0 :: a1 :: args)) with (a1 :: args). cbn [map rev].
  destruct left; intros H; apply (f_equal (@length string)) in H;
    rewrite !length_app in H; cbn [length] in H; lia.
Qed.

Lemma safe_pushAndReply key rv (a0 a1 : Value) args (left : bool) :
  server.Type_ rv = "list" ->
  safe (pushAndReply key rv (a0 :: a1 :: args) left).
Proof.
  intros E db. unfold pushAndReply, cbind, write_back, cret.
  eexists _, _. split; [reflexivity|].
  apply store_ok_insert, pushAll_entry_ok, E.
Qed.

Lemma safe_create_and_push key (a0 a1 : Value) args (left : bool) :
  safe (cbind (Database_SetValue key NewListValue)
          (fun _ => pushAndReply key NewListValue (a0 :: a1 :: args) left)).
Proof.
  intros db. unfold pushAndReply, cbind, write_back, cret, Database_SetValue.
  eexists _, _. split; [reflexivity|].
  rewrite insert_insert_eq. apply store_ok_insert, pushAll_entry_ok. reflexivity.
Qed.

Lemma safe_popAndReply key rv (left : bool) :
  server.Type_ rv = "list" -> safe (popAndReply key rv left).
Proof.
  intros E db. unfold popAndReply, ListPop. rewrite E.
  cbn [String.eqb Ascii.eqb Bool.eqb negb orb].
  destruct (Nat.eqb_spec (length (List_ rv)) 0) as [Hlen | Hlen].
  - cbn [negb]. eexists _, _. split; [reflexivity | tauto].
  - set (l' := if left then drop 1 (List_ rv)
               else take (length (List_ rv) - 1) (List_ rv)).
    assert (Hshape :
      (if left
       then (set_List rv (drop 1 (List_ rv)), (hd "" (List_ rv), true))
       else (set_List rv (take (length (List_ rv) - 1) (List_ rv)),
             (List.last (List_ rv) "", true)))
      = (set_List rv l', (if left then hd "" (List_ rv)
                          else List.last (List_ rv) "", true)))
      by (subst l'; now destruct left).
    rewrite Hshape. cbn [negb]. unfold cbind, write_back, cret.
    rewrite ListLength_list by exact E.
    destruct (Z.eqb_spec (Z.of_nat (length l')) 0) as [Hz | Hnz].
    + unfold Database_Del. rewrite lookup_insert_eq.
      eexists _, _. split; [reflexivity|].
      rewrite delete_insert_eq. apply store_ok_delete.
    + eexists _, _. split; [reflexivity|].
      apply store_ok_insert. right. split; [exact E|].
      cbn [set_List List_]. intros ->. now apply Hnz.
Qed.

End Safety.

Section Handlers.

Implicit Types (db : gmap string RedisValue) (now : Z) (args : list Value).

Ltac step :=
  first [ apply safe_cret
        | apply safe_Set | apply safe_Get | apply safe_Del
        | apply safe_cbind; [|intros ?] ].

Lemma safe_handlePing args : safe (handlePing args).
Proof.
  unfold handlePing. destruct args as [|a0 [|a1 args]]; cbn [length Nat.eqb];
    repeat step.
Qed.

Lemma safe_handleSet args : safe (handleSet args).
Proof.
  unfold handleSet. destruct args as [|a0 [|a1 [|a2 args]]];
    cbn [length Nat.eqb negb]; repeat step.
Qed.

Lemma safe_handleGet now args : safe (handleGet now args).
Proof.
  unfold handleGet. destruct args as [|a0 [|a1 args]];
    cbn [length Nat.eqb negb]; try apply safe_cret.
  apply safe_cbind; [apply safe_index_head | intros first].
  apply safe_cbind; [apply safe_Get | intros [value found]].
  destruct found; apply safe_cret.
Qed.

Lemma safe_handleDel args : safe (handleDel args).
Proof.
  unfold handleDel. destruct args as [|a0 [|a1 args]];
    cbn [length Nat.eqb negb]; try apply safe_cret.
  apply safe_cbind; [apply safe_index_head | intros first].
  apply safe_cbind; [apply safe_Del | intros deleted].
  destruct deleted; apply safe_cret.
Qed.

(** A handler that starts with [GetValue] is safe when what follows is,
    for an absent key and for every entry found under the key. *)
Lemma safe_after_GetValue {A} now (key : string)
    (k : option RedisValue -> Cmd A) :
  safe (k None) ->
  (forall val, (forall db, store_ok db -> db !! key = Some val -> entry_ok val) ->
               safe (k (Some val))) ->
  safe (cbind (Database_GetValue now key) k).
Proof.
  intros Hnone Hsome db.
  destruct (GetValue_cases now key db) as (found & db1 & E & Hok & Hfound).
  unfold cbind. rewrite E. destruct found as [val|].
  - destruct (Hsome val (fun db' H1 H2 => store_ok_lookup key val db' H1 H2) db1)
      as (a & db2 & E2 & H2).
    exists a, db2. split; [exact E2 | tauto].
  - destruct (Hnone db1) as (a & db2 & E2 & H2).
    exists a, db2. split; [exact E2 | tauto].
Qed.

Lemma safe_handleLPush now args : safe (handleLPush now args).
Proof.
  unfold handleLPush. destruct args as [|a0 [|a1 args]];
    cbn [length Nat.ltb Nat.leb]; try apply safe_cret.
  apply safe_cbind; [apply safe_index_head | intros first].
  apply safe_after_GetValue.
  - apply safe_create_and_push.
  - intros val _. destruct (String.eqb_spec (server.Type_ val) "list") as [E|_];
      cbn [negb]; [now apply safe_pushAndReply | apply safe_cret].
Qed.

Lemma safe_handleRPush now args : safe (handleRPush now args).
Proof.
  unfold handleRPush. destruct args as [|a0 [|a1 args]];
    cbn [length Nat.ltb Nat.leb]; try apply safe_cret.
  apply safe_cbind; [apply safe_index_head | intros first].
  apply safe_after_GetValue.
  - apply safe_create_and_push.
  - intros val _. destruct (String.eqb_spec (server.Type_ val) "list") as [E|_];
      cbn [negb]; [now apply safe_pushAndReply | apply safe_cret].
Qed.

Lemma safe_handleLPop now args : safe (handleLPop now args).
Proof.
  unfold handleLPop. destruct args as [|a0 [|a1 args]];
    cbn [length Nat.eqb negb]; try apply safe_cret.
  apply safe_cbind; [apply safe_index_head | intros first].
  apply safe_after_GetValue; [apply safe_cret|].
  intros val _. destruct (String.eqb_spec (server.Type_ val) "list") as [E|_];
    cbn [negb]; [now apply safe_popAndReply | apply safe_cret].
Qed.

Lemma safe_handleRPop now args : safe (handleRPop now args).
Proof.
  unfold handleRPop. destruct args as [|a0 [|a1 args]];
    cbn [length Nat.eqb negb]; try apply safe_cret.
  apply safe_cbind; [apply safe_index_head | intros first].
  apply safe_after_GetValue; [apply safe_cret|].
  intros val _. destruct (String.eqb_spec (server.Type_ val) "list") as [E|_];
    cbn [negb]; [now apply safe_popAndReply | apply safe_cret].
Qed.

Lemma safe_handleLLen now args : safe (handleLLen now args).
Proof.
  unfold handleLLen. destruct args as [|a0 [|a1 args]];
    cbn [length Nat.eqb negb]; try apply safe_cret.
  apply safe_cbind; [apply safe_index_head | intros first].
  apply safe_after_GetValue; [apply safe_cret|].
  intros val _. destruct (negb _); apply safe_cret.
Qed.

Lemma safe_handleType now args : safe (handleType now args).
Proof.
  unfold handleType. destruct args as [|a0 [|a1 args]];
    cbn [length Nat.eqb negb]; try apply safe_cret.
  apply safe_cbind; [apply safe_index_head | intros first].
  apply safe_after_GetValue; [apply safe_cret|].
  intros val _. apply safe_cret.
Qed.

(** A request that is not an Array with an element gets the format error
    and leaves the store alone. *)
Lemma processCommand_bad_shape now (value : Value) db :
  resp.Type_ value <> ARRAY \/ Array value = [] ->
  processCommand now value db = Done (NewError "ERR invalid command format") db.
Proof.
  intros H. unfold processCommand.
  destruct (String.eqb_spec (resp.Type_ value) "array") as [E | E].
  - destruct H as [H | ->]; [contradiction | reflexivity].
  - reflexivity.
Qed.

Lemma safe_processCommand now (value : Value) : safe (processCommand now value).
Proof.
  unfold processCommand.
  destruct (negb (String.eqb (resp.Type_ value) "array")); cbn [orb];
    [apply safe_cret|].
  destruct (Array value) as [|first args]; cbn [length Nat.eqb];
    [apply safe_cret|].
  apply safe_cbind; [apply safe_index_head | intros first'].
  apply safe_cbind; [apply safe_cret | intros args'].
  repeat match goal with
         | |- safe (if ?b then _ else _) => destruct b
         end;
    auto using safe_cret, safe_handlePing, safe_handleSet, safe_handleGet,
      safe_handleDel, safe_handleLPush, safe_handleRPush, safe_handleLPop,
      safe_handleRPop, safe_handleLLen, safe_handleType.
Qed.

End Handlers.

(** C8. [processCommand] returns exactly one reply for every value given
    as a request, from every store and at every time, and never panics.
    A request that is not an Array or has no element, and so the null
    Array and the empty Array, is answered with the Error
    "ERR invalid command format" and leaves the store unchanged. *)
Theorem processCommand_total (now : Z) (value : Value) (db : gmap string RedisValue) :
  (exists (reply : Value) (db' : gmap string RedisValue),
     processCommand now value db = Done reply db') /\
  (resp.Type_ value <> ARRAY \/ Array value = [] ->
   processCommand now value db = Done (NewError "ERR invalid command format") db) /\
  processCommand now NewNullArray db
    = Done (NewError "ERR invalid command format") db /\
  processCommand now (NewArray []) db
    = Done (NewError "ERR invalid command format") db.
Proof.
  split; [|split; [apply processCommand_bad_shape | split; reflexivity]].
  destruct (safe_processCommand now value db) as (reply & db' & E & _).
  now exists reply, db'.
Qed.

Lemma processCommand_total_witness :
  processCommand 0 (NewBulkString "PING") {[ "k" := NewStringValue "v" ]}
  = Done (NewError "ERR invalid command format") {[ "k" := NewStringValue "v" ]}.
Proof.
  refine (proj1 (proj2 (processCommand_total 0 (NewBulkString "PING")
                          {[ "k" := NewStringValue "v" ]})) _).
  left. discriminate.
Defined.

(** C10. Starting from the empty store, every sequence of requests is
    dispatched to the end (each one gets its reply), and in the store it
    leaves every entry has kind "string" or "list" and every list entry
    holds at least one element. *)
Theorem store_invariant (requests : list (Z * Value)) :
  exists (replies : list Value) (db : gmap string RedisValue),
    dispatchAll requests NewDatabase = Done replies db /\
    length replies = length requests /\
    forall (k : string) (rv : RedisValue),
      db !! k = Some rv ->
      (server.Type_ rv = "string" \/ server.Type_ rv = "list") /\
      (server.Type_ rv = "list" -> (0 < length (List_ rv))%nat).
Proof.
  assert (H : forall db0, store_ok db0 ->
    exists replies db, dispatchAll requests db0 = Done replies db /\
      length replies = length requests /\ store_ok db).
  { induction requests as [|[now value] requests IH]; intros db0 Hok.
    - exists [], db0. split; [reflexivity | split; [reflexivity | exact Hok]].
    - destruct (safe_processCommand now value db0) as (r & db1 & E1 & H1).
      destruct (IH db1 (H1 Hok)) as (rs & db2 & E2 & Hlen & H2).
      exists (r :: rs), db2. cbn [dispatchAll]. unfold cbind.
      rewrite E1, E2.
      split; [reflexivity | split; [simpl; now rewrite Hlen | exact H2]]. }
  destruct (H NewDatabase (map_Forall_empty _)) as (replies & db & E & Hlen & Hok).
  exists replies, db. split; [exact E|]. split; [exact Hlen|].
  intros k rv Hk. destruct (Hok k rv Hk) as [Hs | [Hl Hne]].
  - split; [now left|]. intros Hl. rewrite Hs in Hl. discriminate.
  - split; [now right|]. intros _. destruct (List_ rv); [congruence | simpl; lia].
Qed.

(** ** The connection loop and QUIT *)

Lemma Read_request_QUIT (rest : string) :
  Read (encode (request ["QUIT"]) ++ rest) = Ok (request ["QUIT"]) rest.
Proof.
  apply (Read_of_fuel (depth (request ["QUIT"]))).
  apply reads_back_constructible; [|reflexivity|apply Nat.le_refl].
  apply constructible_Array; [vm_compute; discriminate|].
  apply Forall_cons_2; [|apply Forall_nil_2].
  apply constructible_BulkString. vm_compute; discriminate.
Qed.

(** C3 (as amended). A QUIT request is answered with SimpleString "OK"
    and leaves the store unchanged; it does not close the connection:
    the loop of the connection is back in AwaitingRequest with the rest
    of the input, and goes on with the requests that follow. *)
Theorem quit_replies_ok_and_loop_continues
    (now : Z) (db : gmap string RedisValue) (output rest : string) :
  processCommand now (request ["QUIT"]) db = Done (NewSimpleString "OK") db /\
  serve now (AwaitingRequest (encode (request ["QUIT"]) ++ rest) output db)
    = AwaitingRequest rest (output ++ "+OK" ++ CRLF) db /\
  forall (clock : nat -> Z) (turns i : nat),
    serve_loop clock (S turns) i
      (AwaitingRequest (encode (request ["QUIT"]) ++ rest) output db)
    = serve_loop clock turns (S i)
        (AwaitingRequest rest (output ++ "+OK" ++ CRLF) db).
Proof.
  assert (H : forall now',
    serve now' (AwaitingRequest (encode (request ["QUIT"]) ++ rest) output db)
    = AwaitingRequest rest (output ++ "+OK" ++ CRLF) db).
  { intros now'. unfold serve. now rewrite Read_request_QUIT. }
  split; [reflexivity|]. split; [apply H|].
  intros clock turns i. cbn [serve_loop]. now rewrite H.
Qed.

(** C3 (as stated) fails: a PING that follows a QUIT on the same
    connection is still read and answered; after the QUIT the connection
    is awaiting the next request, and it closes at the end of the input. *)
Lemma quit_then_ping_counterexample :
  let input := encode (request ["QUIT"]) ++ encode (request ["PING"]) in
  serve 0 (AwaitingRequest input "" ∅)
    = AwaitingRequest (encode (request ["PING"])) ("+OK" ++ CRLF) ∅ /\
  handleClient (fun _ => 0) input ∅
    = Closed ("+OK" ++ CRLF ++ "+PONG" ++ CRLF) ∅.
Proof. split; vm_compute; reflexivity. Qed.

(** * Further properties of the codec *)

Section ReadEquation.

Lemma Read_fuel_enough (fuel : nat) (s : string) :
  (String.length s < fuel)%nat -> Read_fuel fuel s = Read s.
Proof.
  intros Hlen. unfold Read.
  pose proof (Read_fuel_settled (S (String.length s)) s ltac:(lia)) as Hs.
  destruct (Read_fuel_stable (S (String.length s)) fuel s ltac:(lia)) as [E | E].
  - rewrite E in Hs. contradiction.
  - now rewrite E.
Qed.

Lemma Read_shrinks (s : string) (v : Value) (rest : string) :
  Read s = Ok v rest -> (String.length rest <= String.length s)%nat.
Proof.
  intros E. unfold Read in E.
  pose proof (Read_fuel_settled (S (String.length s)) s ltac:(lia)) as Hs.
  now rewrite E in Hs.
Qed.

Lemma readElements_ext (read : Parser Value) (m : nat) :
  (forall s, (String.length s <= m)%nat -> read s = Read s) ->
  forall (n : nat) (s : string),
    (String.length s <= m)%nat ->
    readElements read n s = readElements Read n s.
Proof.
  intros Hread. induction n as [|n IH]; intros s Hs; [reflexivity|].
  cbn [readElements]. unfold bind. rewrite (Hread s Hs).
  destruct (Read s) as [v rest| | |] eqn:E; try reflexivity.
  rewrite IH; [reflexivity|]. apply Read_shrinks in E. lia.
Qed.

Lemma readArray_ext (read : Parser Value) (s : string) :
  (forall s', (String.length s' <= String.length s)%nat -> read s' = Read s') ->
  readArray read s = readArray Read s.
Proof.
  intros Hread. unfold readArray, bind.
  pose proof (readLine_settled s) as Hline.
  destruct (readLine s) as [line r1| | |]; try reflexivity.
  simpl in Hline.
  destruct (String.eqb line "-1"); [reflexivity|].
  destruct (Atoi line) as [len|]; [|reflexivity].
  unfold make. destruct (len <? 0)%Z; [reflexivity|].
  rewrite (readElements_ext read (String.length s) Hread) by exact Hline.
  reflexivity.
Qed.

(** [Read] satisfies the recursive equation of the source: no fuel is
    left in it. *)
Lemma Read_unfold (s : string) : Read s = Read_body Read s.
Proof.
  unfold Read. cbn [Read_fuel]. fold (Read_body (Read_fuel (String.length s))).
  unfold Read_body, bind. destruct s as [|typeByte rest]; [reflexivity|].
  cbn [ReadByte].
  repeat match goal with
         | |- (if ?b then _ else _) _ = _ => destruct b; [reflexivity|]
         end.
  destruct (Ascii.eqb typeByte "*"); [|reflexivity].
  apply readArray_ext. intros s' Hs'. apply Read_fuel_enough. simpl. lia.
Qed.

Lemma Read_encoded (v : Value) (rest : string) :
  transmissible v -> Read (encode v ++ rest) = Ok v rest.
Proof.
  intros [Hv Hline]. apply (Read_of_fuel (depth v)).
  now apply reads_back_constructible.
Qed.

(** A frame: the tag, a line without line feed, CR LF, and what follows. *)
Lemma Read_frame (tag : ascii) (line rest : string) :
  has_byte LF line = false ->
  Read (String tag (line ++ CRLF ++ rest))
  = (if Ascii.eqb tag "+" then Ok (NewSimpleString line) rest
     else if Ascii.eqb tag "-" then Ok (NewError line) rest
     else if Ascii.eqb tag ":" then
       match Atoi line with
       | Some num => Ok (NewInteger num) rest
       | None => Err (ErrInvalidInteger line)
       end
     else if Ascii.eqb tag "$" then
       if String.eqb line "-1" then Ok NewNullBulkString rest
       else match Atoi line with
            | None => Err (ErrInvalidBulkLength line)
            | Some len =>
                (let* _ := make len in
                 let* bulk := ReadFull (Z.to_nat len) in
                 let* _ := ReadByte_ignored in
                 let* _ := ReadByte_ignored in
                 ret (NewBulkString bulk)) rest
            end
     else if Ascii.eqb tag "*" then
       if String.eqb line "-1" then Ok NewNullArray rest
       else match Atoi line with
            | None => Err (ErrInvalidArrayLength line)
            | Some len =>
                (let* _ := make len in
                 let* array := readElements Read (Z.to_nat len) in
                 ret (NewArray array)) rest
            end
     else Err (ErrUnknownType tag)).
Proof.
  intros Hline. rewrite Read_unfold. unfold Read_body. unfold bind at 1.
  cbn [ReadByte].
  unfold readSimpleString, readError, readInteger, readBulkString, readArray.
  destruct (Ascii.eqb tag "+");
    [unfold bind; now rewrite readLine_framed|].
  destruct (Ascii.eqb tag "-");
    [unfold bind; now rewrite readLine_framed|].
  destruct (Ascii.eqb tag ":").
  { unfold bind. rewrite readLine_framed by exact Hline.
    now destruct (Atoi line). }
  destruct (Ascii.eqb tag "$").
  { unfold bind at 1. rewrite readLine_framed by exact Hline.
    destruct (String.eqb line "-1"); [reflexivity|].
    now destruct (Atoi line). }
  destruct (Ascii.eqb tag "*"); [|reflexivity].
  unfold bind at 1. rewrite readLine_framed by exact Hline.
  destruct (String.eqb line "-1"); [reflexivity|].
  now destruct (Atoi line).
Qed.

End ReadEquation.

Section ReadShape.

Lemma leaves_suffix_refl {A} (a : A) (s : string) : leaves_suffix s (Ok a s).
Proof. now exists "". Qed.

Lemma leaves_suffix_bind {A B} (p : Parser A) (k : A -> Parser B) (s : string) :
  leaves_suffix s (p s) ->
  (forall a r, leaves_suffix r (k a r)) ->
  leaves_suffix s (bind p k s).
Proof.
  unfold bind. intros Hp Hk. destruct (p s) as [a r| | |]; simpl; auto.
  destruct Hp as [c1 ->]. specialize (Hk a r).
  destruct (k a r) as [b r'| | |]; simpl; auto.
  destruct Hk as [c2 ->]. exists (c1 ++ c2). now rewrite append_assoc.
Qed.

Lemma ReadString_suffix (delim : ascii) (s : string) :
  leaves_suffix s (ReadString delim s).
Proof.
  induction s as [|c s IH]; simpl; [exact I|].
  destruct (Ascii.eqb c delim); [now exists (String c "")|].
  destruct (ReadString delim s) as [line r| | |]; simpl in *; auto.
  destruct IH as [c1 ->]. now exists (String c c1).
Qed.

Lemma ReadFull_suffix (n : nat) (s : string) : leaves_suffix s (ReadFull n s).
Proof.
  revert s. induction n as [|n IH]; intros s; simpl; [now exists ""|].
  destruct s as [|c s]; simpl; [exact I|].
  specialize (IH s). destruct (ReadFull n s) as [buf r| | |]; simpl in *; auto.
  destruct IH as [c1 ->]. now exists (String c c1).
Qed.

Lemma ReadByte_ignored_suffix (s : string) : leaves_suffix s (ReadByte_ignored s).
Proof. destruct s as [|c s]; simpl; [now exists "" | now exists (String c "")]. Qed.

Lemma make_suffix (len : Z) (s : string) : leaves_suffix s (make len s).
Proof. unfold make. destruct (len <? 0)%Z; simpl; [exact I | now exists ""]. Qed.

Lemma readLine_suffix (s : string) : leaves_suffix s (readLine s).
Proof.
  unfold readLine. apply leaves_suffix_bind; [apply ReadString_suffix|].
  intros a r. apply leaves_suffix_refl.
Qed.

Lemma readElements_suffix (read : Parser Value) :
  (forall s, leaves_suffix s (read s)) ->
  forall n s, leaves_suffix s (readElements read n s).
Proof.
  intros Hread. induction n as [|n IH]; intros s; cbn [readElements];
    [apply leaves_suffix_refl|].
  apply leaves_suffix_bind; [apply Hread|]. intros v r.
  apply leaves_suffix_bind; [apply IH|]. intros vs r'. apply leaves_suffix_refl.
Qed.

Lemma Read_body_suffix (read : Parser Value) :
  (forall s, leaves_suffix s (read s)) ->
  forall s, match Read_body read s with
            | Ok _ rest => exists consumed, consumed <> "" /\ s = consumed ++ rest
            | _ => True
            end.
Proof.
  intros Hread s. unfold Read_body, bind. destruct s as [|tag s]; [exact I|].
  cbn [ReadByte].
  assert (H : leaves_suffix s
    ((if Ascii.eqb tag "+" then readSimpleString
      else if Ascii.eqb tag "-" then readError
      else if Ascii.eqb tag ":" then readInteger
      else if Ascii.eqb tag "$" then readBulkString
      else if Ascii.eqb tag "*" then readArray read
      else fail (ErrUnknownType tag)) s)).
  { repeat match goal with
           | |- leaves_suffix _ ((if ?b then _ else _) _) => destruct b
           end.
    - unfold readSimpleString. apply leaves_suffix_bind; [apply readLine_suffix|].
      intros; apply leaves_suffix_refl.
    - unfold readError. apply leaves_suffix_bind; [apply readLine_suffix|].
      intros; apply leaves_suffix_refl.
    - unfold readInteger. apply leaves_suffix_bind; [apply readLine_suffix|].
      intros line r. destruct (Atoi line); [apply leaves_suffix_refl | exact I].
    - unfold readBulkString. apply leaves_suffix_bind; [apply readLine_suffix|].
      intros line r. destruct (String.eqb line "-1"); [apply leaves_suffix_refl|].
      destruct (Atoi line); [|exact I].
      apply leaves_suffix_bind; [apply make_suffix|]. intros _ r1.
      apply leaves_suffix_bind; [apply ReadFull_suffix|]. intros bulk r2.
      apply leaves_suffix_bind; [apply ReadByte_ignored_suffix|]. intros _ r3.
      apply leaves_suffix_bind; [apply ReadByte_ignored_suffix|]. intros _ r4.
      apply leaves_suffix_refl.
    - unfold readArray. apply leaves_suffix_bind; [apply readLine_suffix|].
      intros line r. destruct (String.eqb line "-1"); [apply leaves_suffix_refl|].
      destruct (Atoi line); [|exact I].
      apply leaves_suffix_bind; [apply make_suffix|]. intros _ r1.
      apply leaves_suffix_bind; [now apply readElements_suffix|]. intros arr r2.
      apply leaves_suffix_refl.
    - exact I. }
  match goal with
  | |- match ?r with _ => _ end => destruct r as [v rest| | |]; auto
  end.
  destruct H as [c ->]. exists (String tag c). split; [discriminate | reflexivity].
Qed.

Lemma Read_fuel_suffix (fuel : nat) (s : string) : leaves_suffix s (Read_fuel fuel s).
Proof.
  revert s. induction fuel as [|fuel IH]; intros s; [exact I|].
  pose proof (Read_body_suffix (Read_fuel fuel) IH s) as H.
  change (Read_fuel (S fuel) s) with (Read_body (Read_fuel fuel) s).
  destruct (Read_body (Read_fuel fuel) s); simpl; auto.
  destruct H as (c & _ & ->). now exists c.
Qed.

End ReadShape.

(** X1. A successful [Read] consumes a non-empty prefix of the stream:
    the bytes it leaves are what followed the frame it decoded. *)
Theorem Read_consumes_prefix (s : string) (v : Value) (rest : string) :
  Read s = Ok v rest ->
  exists consumed : string,
    consumed <> "" /\ s = consumed ++ rest /\
    (String.length rest < String.length s)%nat.
Proof.
  intros E. rewrite Read_unfold in E.
  pose proof (Read_body_suffix Read (fun s' => Read_fuel_suffix _ s') s) as H.
  rewrite E in H. destruct H as (c & Hc & ->).
  exists c. split; [exact Hc|]. split; [reflexivity|].
  rewrite length_append. destruct c; [congruence | simpl; lia].
Qed.

Lemma Read_consumes_prefix_witness :
  exists consumed : string,
    consumed <> "" /\
    ":42" ++ CRLF ++ "+OK" ++ CRLF = consumed ++ ("+OK" ++ CRLF) /\
    (String.length ("+OK" ++ CRLF)
     < String.length (":42" ++ CRLF ++ "+OK" ++ CRLF))%nat.
Proof.
  exact (Read_consumes_prefix (":42" ++ CRLF ++ "+OK" ++ CRLF)
           (NewInteger 42) ("+OK" ++ CRLF) eq_refl).
Defined.

Section ReadValues.

Lemma yields_bind {A B} (Q : B -> Prop) (p : Parser A) (k : A -> Parser B)
    (s : string) :
  (forall a r, p s = Ok a r -> yields Q (k a r)) ->
  yields Q (bind p k s).
Proof.
  unfold bind. intros Hk. destruct (p s) as [a r| | |]; simpl; auto.
Qed.

Lemma Atoi_range (s : string) (n : Z) :
  Atoi s = Some n -> minInt <= n <= maxInt.
Proof.
  unfold Atoi. destruct s as [|c r]; [discriminate|]. cbv zeta.
  match goal with
  | |- match ?body with _ => _ end = _ -> _ => destruct body; [discriminate|]
  end.
  match goal with
  | |- match ?p with _ => _ end = _ -> _ => destruct p as [m|]; [|discriminate]
  end.
  match goal with
  | |- (if ?b then _ else _) = _ -> _ => destruct b eqn:E; [|discriminate]
  end.
  intros [= <-]. apply andb_prop in E as [E1 E2].
  apply Z.leb_le in E1, E2. split; assumption.
Qed.

Lemma ReadFull_length (n : nat) (s buf rest : string) :
  ReadFull n s = Ok buf rest -> String.length buf = n.
Proof.
  revert s buf rest. induction n as [|n IH]; intros s buf rest; simpl.
  - now intros [= <- _].
  - destruct s as [|c s]; [discriminate|].
    destruct (ReadFull n s) as [b r| | |] eqn:E; try discriminate.
    intros [= <- _]. simpl. f_equal. exact (IH _ _ _ E).
Qed.

Lemma readElements_constructible (read : Parser Value) :
  (forall s, yields constructible (read s)) ->
  forall n s,
    yields (fun arr => length arr = n /\ Forall constructible arr)
           (readElements read n s).
Proof.
  intros Hread. induction n as [|n IH]; intros s; cbn [readElements].
  - split; [reflexivity | constructor].
  - apply yields_bind. intros v r Ev. apply yields_bind. intros vs r' Evs.
    pose proof (Hread s) as Hv. rewrite Ev in Hv.
    pose proof (IH r) as Hvs. rewrite Evs in Hvs. destruct Hvs as [Hlen Hall].
    split; [simpl; now rewrite Hlen | now constructor].
Qed.

Lemma Read_body_constructible (read : Parser Value) :
  (forall s, yields constructible (read s)) ->
  forall s, yields constructible (Read_body read s).
Proof.
  intros Hread s. unfold Read_body. apply yields_bind. intros tag r _.
  repeat match goal with
         | |- yields _ ((if ?b then _ else _) _) => destruct b
         end.
  - unfold readSimpleString. apply yields_bind. intros line r1 _.
    apply constructible_SimpleString.
  - unfold readError. apply yields_bind. intros line r1 _.
    apply constructible_Error.
  - unfold readInteger. apply yields_bind. intros line r1 _.
    destruct (Atoi line) as [num|] eqn:E; [|exact I].
    apply constructible_Integer. now apply (Atoi_range line).
  - unfold readBulkString. apply yields_bind. intros line r1 _.
    destruct (String.eqb line "-1"); [apply constructible_NullBulkString|].
    destruct (Atoi line) as [len|] eqn:E; [|exact I].
    apply Atoi_range in E.
    apply yields_bind. intros [] r2 Hmake.
    apply yields_bind. intros bulk r3 Hfull.
    apply yields_bind. intros [] r4 _. apply yields_bind. intros [] r5 _.
    apply constructible_BulkString.
    apply ReadFull_length in Hfull. rewrite Hfull.
    unfold make in Hmake. destruct (Z.ltb_spec len 0); [discriminate|]. lia.
  - unfold readArray. apply yields_bind. intros line r1 _.
    destruct (String.eqb line "-1"); [apply constructible_NullArray|].
    destruct (Atoi line) as [len|] eqn:E; [|exact I].
    apply Atoi_range in E.
    apply yields_bind. intros [] r2 Hmake.
    apply yields_bind. intros arr r3 Harr.
    pose proof (readElements_constructible read Hread (Z.to_nat len) r2) as H.
    rewrite Harr in H. destruct H as [Hlen Hall].
    apply constructible_Array; [|exact Hall]. rewrite Hlen.
    unfold make in Hmake. destruct (Z.ltb_spec len 0); [discriminate|]. lia.
  - exact I.
Qed.

Lemma Read_fuel_constructible (fuel : nat) (s : string) :
  yields constructible (Read_fuel fuel s).
Proof.
  revert s. induction fuel as [|fuel IH]; intros s; [exact I|].
  exact (Read_body_constructible (Read_fuel fuel) IH s).
Qed.



End ReadValues.

(** X2. Every value [Read] returns is one the constructors build: only a
    BulkString or an Array is null, a null value has no payload, an
    Integer fits an [int], and the fields its kind does not use are
    zero, down every element of an Array. *)
Theorem Read_constructible (s : string) (v : Value) (rest : string) :
  Read s = Ok v rest -> constructible v.
Proof.
  intros E. pose proof (Read_fuel_constructible (S (String.length s)) s) as H.
  unfold Read in E. now rewrite E in H.
Qed.

Lemma Read_constructible_witness :
  constructible (NewArray [NewBulkString "GET"; NewBulkString "k"]).
Proof.
  exact (Read_constructible
           ("*2" ++ CRLF ++ "$3" ++ CRLF ++ "GET" ++ CRLF ++ "$1" ++ CRLF ++ "k" ++ CRLF)
           (NewArray [NewBulkString "GET"; NewBulkString "k"]) "" eq_refl).
Defined.



(** X4. The CR LF after the payload of a BulkString may be missing: when
    the stream ends right after the payload, or one or two bytes later,
    the frame still decodes to the BulkString of its payload. *)
Theorem bulk_trailer_may_be_missing (payload tail : string) :
  Z.of_nat (String.length payload) <= maxInt ->
  (String.length tail <= 2)%nat ->
  Read ("$" ++ Itoa (Z.of_nat (String.length payload)) ++ CRLF ++ payload ++ tail)
  = Ok (NewBulkString payload) "".
Proof.
  intros Hlen Htail. rewrite append_cons, append_nil.
  rewrite Read_frame by apply Itoa_no_LF. cbn [Ascii.eqb Bool.eqb].
  rewrite Itoa_nonneg_not_minus_one by lia.
  rewrite Atoi_Itoa by now apply length_nonneg_in_range.
  unfold bind, make.
  destruct (Z.ltb_spec (Z.of_nat (String.length payload)) 0); [lia|].
  rewrite Nat2Z.id, ReadFull_exact.
  destruct tail as [|x [|y [|z tail]]]; try reflexivity. simpl in Htail. lia.
Qed.

Lemma bulk_trailer_may_be_missing_witness :
  Read ("$5" ++ CRLF ++ "hello") = Ok (NewBulkString "hello") "".
Proof.
  apply (bulk_trailer_may_be_missing "hello" "");
    [vm_compute; discriminate | simpl; lia].
Defined.



(** X6. A line that [strconv.Atoi] rejects is a decode error for each of
    the three kinds that carry a number: an Integer, the length of a
    BulkString and the count of an Array. *)
Theorem malformed_number_is_error (line rest : string) :
  has_byte LF line = false ->
  Atoi line = None ->
  Read (":" ++ line ++ CRLF ++ rest) = Err (ErrInvalidInteger line) /\
  Read ("$" ++ line ++ CRLF ++ rest) = Err (ErrInvalidBulkLength line) /\
  Read ("*" ++ line ++ CRLF ++ rest) = Err (ErrInvalidArrayLength line).
Proof.
  intros Hline Hatoi.
  assert (Hneq : String.eqb line "-1" = false).
  { apply String.eqb_neq. intros ->. discriminate Hatoi. }
  rewrite !append_cons, !append_nil. rewrite !Read_frame by exact Hline.
  cbn [Ascii.eqb Bool.eqb]. now rewrite Hneq, Hatoi.
Qed.

Lemma malformed_number_is_error_witness :
  Read (":12a" ++ CRLF) = Err (ErrInvalidInteger "12a") /\
  Read ("$ 5" ++ CRLF ++ "hello" ++ CRLF) = Err (ErrInvalidBulkLength " 5") /\
  Read ("*" ++ CRLF) = Err (ErrInvalidArrayLength "").
Proof.
  split; [|split].
  - exact (proj1 (malformed_number_is_error "12a" "" eq_refl eq_refl)).
  - exact (proj1 (proj2 (malformed_number_is_error " 5" ("hello" ++ CRLF)
                           eq_refl eq_refl))).
  - exact (proj2 (proj2 (malformed_number_is_error "" "" eq_refl eq_refl))).
Defined.

Section WriterFacts.

(** Induction on values that reaches the elements of an Array. *)
Lemma Value_induction (P : Value -> Prop) :
  (forall ty str num bulk arr null,
      Forall P arr -> P (mkValue ty str num bulk arr null)) ->
  forall v, P v.
Proof.
  intros H. fix IH 1. intros [ty str num bulk arr null]. apply H.
  induction arr as [|x arr IHarr]; constructor; [apply IH | exact IHarr].
Qed.

Lemma writeElements_ok (arr : list Value) :
  Forall (fun v => snd (Write v) = known_types v) arr ->
  snd (writeElements Write arr) = forallb known_types arr.
Proof.
  induction 1 as [|v arr Hv _ IH]; [reflexivity|].
  cbn [writeElements forallb]. destruct (Write v) as [out ok]. simpl in Hv.
  rewrite <- Hv. destruct ok; [|reflexivity].
  destruct (writeElements Write arr) as [out' ok']. simpl in IH. now rewrite <- IH.
Qed.

Lemma request_transmissible (words : list string) :
  Forall (fun w => Z.of_nat (String.length w) <= maxInt) words ->
  Z.of_nat (length words) <= maxInt ->
  transmissible (request words).
Proof.
  intros Hwords Hlen. split.
  - apply constructible_Array; [now rewrite length_map|]. clear Hlen.
    induction Hwords as [|w words Hw _ IH]; [constructor|].
    cbn [map]. constructor; [now apply constructible_BulkString | exact IH].
  - unfold request. cbn [single_line NewArray has_byte negb andb].
    clear. induction words as [|w words IH]; [reflexivity|].
    cbn [map forallb]. now rewrite IH.
Qed.

End WriterFacts.

Lemma Write_ok_known (v : Value) : snd (Write v) = known_types v.
Proof.
  induction v as [ty str num bulk arr null IH] using Value_induction.
  cbn [Write known_types].
  destruct (String.eqb ty STRING); [reflexivity|].
  destruct (String.eqb ty ERROR); [reflexivity|].
  destruct (String.eqb ty INTEGER); [reflexivity|].
  destruct (String.eqb ty BULK); [now destruct null|].
  destruct (String.eqb ty ARRAY); [|reflexivity].
  destruct null; [reflexivity|]. cbn [orb andb].
  unfold writeArray. pose proof (writeElements_ok arr IH) as H.
  destruct (writeElements Write arr) as [out ok]. exact H.
Qed.

(** X7. [Write] returns an error exactly when the value, or an element
    of a non-null Array in it, has a [Type] other than the five kinds;
    for every other value, whatever its fields hold, it returns [nil]. *)
Theorem Write_ok_iff_known_types (v : Value) :
  snd (Write v) = true <-> known_types v = true.
Proof. now rewrite Write_ok_known. Qed.

Lemma Write_ok_iff_known_types_witness :
  snd (Write sample_reply) = true /\ known_types zeroValue = false.
Proof.
  split.
  - exact (proj2 (Write_ok_iff_known_types sample_reply) eq_refl).
  - destruct (known_types zeroValue) eqn:E; [|reflexivity].
    discriminate (proj2 (Write_ok_iff_known_types zeroValue) E).
Defined.

(** X8. The encoding is unambiguous: when the bytes of two transmissible
    values, each followed by anything, are the same stream, the values
    are equal and so are the bytes that follow them. *)
Theorem encode_injective (v1 v2 : Value) (rest1 rest2 : string) :
  transmissible v1 -> transmissible v2 ->
  encode v1 ++ rest1 = encode v2 ++ rest2 ->
  v1 = v2 /\ rest1 = rest2.
Proof.
  intros H1 H2 E.
  pose proof (Read_encoded v1 rest1 H1) as R1.
  pose proof (Read_encoded v2 rest2 H2) as R2.
  rewrite E, R2 in R1. injection R1 as -> ->. now split.
Qed.

Lemma encode_injective_witness :
  NewBulkString "a" = NewBulkString "a" /\ "tail" = "tail".
Proof.
  assert (H : transmissible (NewBulkString "a")).
  { split; [|reflexivity]. apply constructible_BulkString. vm_compute; discriminate. }
  exact (encode_injective (NewBulkString "a") (NewBulkString "a") "tail" "tail"
           H H eq_refl).
Defined.

(** X9. A command line sent as an Array of BulkStrings reaches the
    reader intact whatever bytes its words hold (CR, LF, spaces, the
    empty word): [Read] returns the very request and leaves what
    followed it. *)
Theorem request_read_back (words : list string) (rest : string) :
  Forall (fun w => Z.of_nat (String.length w) <= maxInt) words ->
  Z.of_nat (length words) <= maxInt ->
  Read (encode (request words) ++ rest) = Ok (request words) rest.
Proof.
  intros Hwords Hlen. apply Read_encoded. now apply request_transmissible.
Qed.

Lemma request_read_back_witness :
  Read (encode (request ["SET"; "k"; "two" ++ CRLF ++ "lines"; ""]) ++ "next")
  = Ok (request ["SET"; "k"; "two" ++ CRLF ++ "lines"; ""]) "next".
Proof.
  apply (request_read_back ["SET"; "k"; "two" ++ CRLF ++ "lines"; ""] "next").
  - repeat (apply Forall_cons_2; [vm_compute; discriminate|]). apply Forall_nil_2.
  - vm_compute; discriminate.
Defined.

(** * Further properties of the command engine *)

Section Frame.

Implicit Types (db : gmap string RedisValue) (now : Z) (key k : string)
  (args : list Value).

Lemma keeps_cret {A} k (a : A) : keeps k (cret a).
Proof. intros db a' db' [= _ <-]. reflexivity. Qed.

Lemma keeps_cbind {A B} k (c : Cmd A) (f : A -> Cmd B) :
  keeps k c -> (forall a, keeps k (f a)) -> keeps k (cbind c f).
Proof.
  intros Hc Hf db b db'. unfold cbind.
  destruct (c db) as [a db1|] eqn:E; [|discriminate].
  intros E'. rewrite (Hf a db1 b db' E'). exact (Hc db a db1 E).
Qed.

Lemma keeps_index {A} k (l : list A) (i : nat) : keeps k (index l i).
Proof.
  intros db a db'. unfold index. destruct (l !! i); [|discriminate].
  now intros [= _ <-].
Qed.

Lemma keeps_after_head {A B} k (x : A) (l : list A) (f : A -> Cmd B) :
  keeps k (f x) -> keeps k (cbind (index (x :: l) 0) f).
Proof. intros H db b db' E. exact (H db b db' E). Qed.

Lemma keeps_after_tail {A B} k (x : A) (l : list A) (f : list A -> Cmd B) :
  keeps k (f l) -> keeps k (cbind (slice_from (x :: l) 1) f).
Proof. intros H db b db' E. exact (H db b db' E). Qed.

Lemma keeps_Set key k (value : string) : key <> k -> keeps k (Database_Set key value).
Proof. intros Hne db a db' [= _ <-]. now apply lookup_insert_ne. Qed.

Lemma keeps_SetValue key k (rv : RedisValue) :
  key <> k -> keeps k (Database_SetValue key rv).
Proof. intros Hne db a db' [= _ <-]. now apply lookup_insert_ne. Qed.

Lemma keeps_write_back key k (rv : RedisValue) :
  key <> k -> keeps k (write_back key rv).
Proof. intros Hne db a db' [= _ <-]. now apply lookup_insert_ne. Qed.

Lemma keeps_Get now key k : key <> k -> keeps k (Database_Get now key).
Proof.
  intros Hne db a db'. unfold Database_Get.
  destruct (db !! key) as [val|]; [|now intros [= _ <-]].
  destruct (IsExpired now val); [intros [= _ <-]; now apply lookup_delete_ne|].
  destruct (negb _); now intros [= _ <-].
Qed.

Lemma keeps_GetValue now key k : key <> k -> keeps k (Database_GetValue now key).
Proof.
  intros Hne db a db'. unfold Database_GetValue.
  destruct (db !! key) as [val|]; [|now intros [= _ <-]].
  destruct (IsExpired now val); intros [= _ <-];
    [now apply lookup_delete_ne | reflexivity].
Qed.

Lemma keeps_Del key k : key <> k -> keeps k (Database_Del key).
Proof.
  intros Hne db a db'. unfold Database_Del.
  destruct (db !! key); intros [= _ <-];
    [now apply lookup_delete_ne | reflexivity].
Qed.

Ltac keeps_step Hne :=
  match goal with
  | |- keeps _ (cret _) => apply keeps_cret
  | |- keeps _ (cbind (index (_ :: _) 0) _) => apply keeps_after_head
  | |- keeps _ (cbind _ _) => apply keeps_cbind; [|intros ?]
  | |- keeps _ (index _ _) => apply keeps_index
  | |- keeps _ (Database_Set _ _) => apply keeps_Set, Hne
  | |- keeps _ (Database_SetValue _ _) => apply keeps_SetValue, Hne
  | |- keeps _ (write_back _ _) => apply keeps_write_back, Hne
  | |- keeps _ (Database_Get _ _) => apply keeps_Get, Hne
  | |- keeps _ (Database_GetValue _ _) => apply keeps_GetValue, Hne
  | |- keeps _ (Database_Del _) => apply keeps_Del, Hne
  | |- keeps _ (pushAndReply _ _ _ _) => unfold pushAndReply; cbv zeta
  | |- keeps _ (popAndReply _ _ _) => unfold popAndReply
  | |- keeps _ (if ?b then _ else _) => destruct b
  | |- keeps _ (match ?x with _ => _ end) => destruct x
  end.

(** A handler changes no key but the one its first argument names. *)
Lemma keeps_handlers now args k :
  (forall a0, args !! 0%nat = Some a0 -> Bulk a0 <> k) ->
  keeps k (handlePing args) /\ keeps k (handleSet args) /\
  keeps k (handleGet now args) /\ keeps k (handleDel args) /\
  keeps k (handleLPush now args) /\ keeps k (handleRPush now args) /\
  keeps k (handleLPop now args) /\ keeps k (handleRPop now args) /\
  keeps k (handleLLen now args) /\ keeps k (handleType now args).
Proof.
  intros Hkey. destruct args as [|a0 args].
  - repeat split; apply keeps_cret.
  - assert (Hne : Bulk a0 <> k) by now apply Hkey.
    unfold handlePing, handleSet, handleGet, handleDel, handleLPush,
      handleRPush, handleLPop, handleRPop, handleLLen, handleType.
    repeat split; cbv zeta; repeat keeps_step Hne.
Qed.

Lemma keeps_processCommand now (value : Value) k :
  (forall a0, Array value !! 1%nat = Some a0 -> Bulk a0 <> k) ->
  keeps k (processCommand now value).
Proof.
  intros Hkey. unfold processCommand.
  destruct (negb (String.eqb (resp.Type_ value) "array")); cbn [orb];
    [apply keeps_cret|].
  destruct (Array value) as [|first args]; cbn [length Nat.eqb];
    [apply keeps_cret|].
  apply keeps_after_head. cbv zeta. apply keeps_after_tail.
  destruct (keeps_handlers now args k Hkey)
    as (H1 & H2 & H3 & H4 & H5 & H6 & H7 & H8 & H9 & H10).
  repeat match goal with
         | |- keeps _ (if ?b then _ else _) => destruct b; [assumption|]
         end.
  destruct (String.eqb _ _); apply keeps_cret.
Qed.

End Frame.

Section Replies.

Implicit Types (db : gmap string RedisValue) (now : Z) (args : list Value).

Lemma replies_cret (R : Value -> Prop) (r : Value) : R r -> replies_with R (cret r).
Proof. intros H db r' db' [= <- _]. exact H. Qed.

Lemma replies_cbind {A} (R : Value -> Prop) (c : Cmd A) (f : A -> Cmd Value) :
  (forall a, replies_with R (f a)) -> replies_with R (cbind c f).
Proof.
  intros Hf db r db'. unfold cbind. destruct (c db) as [a db1|]; [|discriminate].
  apply Hf.
Qed.

Lemma plain_SimpleString (s : string) : plain_reply (NewSimpleString s).
Proof. split; [reflexivity | now left]. Qed.

Lemma plain_Error (s : string) : plain_reply (NewError s).
Proof. split; [reflexivity | now right; left]. Qed.

Lemma plain_Integer (n : Z) : plain_reply (NewInteger n).
Proof. split; [reflexivity | now right; right; left]. Qed.

Lemma plain_BulkString (s : string) : plain_reply (NewBulkString s).
Proof. split; [reflexivity | now right; right; right]. Qed.

Lemma plain_NullBulkString : plain_reply NewNullBulkString.
Proof. split; [reflexivity | now right; right; right]. Qed.

Ltac replies_step :=
  match goal with
  | |- replies_with _ (cret _) =>
      apply replies_cret;
      first [ apply plain_SimpleString | apply plain_Error | apply plain_Integer
            | apply plain_BulkString | apply plain_NullBulkString ]
  | |- replies_with _ (cbind _ _) => apply replies_cbind; intros ?
  | |- replies_with _ (pushAndReply _ _ _ _) => unfold pushAndReply; cbv zeta
  | |- replies_with _ (popAndReply _ _ _) => unfold popAndReply
  | |- replies_with _ (if ?b then _ else _) => destruct b
  | |- replies_with _ (match ?x with _ => _ end) => destruct x
  end.

Lemma replies_processCommand now (value : Value) :
  replies_with plain_reply (processCommand now value).
Proof.
  unfold processCommand, handlePing, handleSet, handleGet, handleDel, handleLPush,
    handleRPush, handleLPop, handleRPop, handleLLen, handleType.
  cbv zeta. repeat replies_step.
Qed.

End Replies.

(** X10. A command changes no key of the store other than the one its
    first argument names, whatever the command, its arguments and the
    time; a request without arguments changes nothing. *)
Theorem command_touches_only_its_key
    (now : Z) (value reply : Value) (db db' : gmap string RedisValue) :
  processCommand now value db = Done reply db' ->
  (forall k : string,
     (forall a0, Array value !! 1%nat = Some a0 -> Bulk a0 <> k) ->
     db' !! k = db !! k) /\
  (Array value !! 1%nat = None -> db' = db).
Proof.
  intros E. split.
  - intros k Hk. exact (keeps_processCommand now value k Hk db reply db' E).
  - intros Hnone. apply map_eq. intros k.
    refine (keeps_processCommand now value k _ db reply db' E).
    intros a0 Ha0. congruence.
Qed.

Lemma command_touches_only_its_key_witness :
  (<["a" := set_List NewListValue ["x"]]>
     ({[ "b" := NewStringValue "v" ]} : gmap string RedisValue)) !! "b"
  = ({[ "b" := NewStringValue "v" ]} : gmap string RedisValue) !! "b".
Proof.
  refine (proj1 (command_touches_only_its_key 0 (request ["LPUSH"; "a"; "x"])
                   (NewInteger 1) {[ "b" := NewStringValue "v" ]} _ eq_refl)
            "b" _).
  intros a0 [= <-]. discriminate.
Defined.

(** X11. Every reply of [processCommand] is a SimpleString, an Error, an
    Integer or a BulkString, never an Array, and the writer accepts it:
    a reply never ends the connection loop with a write error of the
    codec. *)
Theorem replies_are_writable
    (now : Z) (value reply : Value) (db db' : gmap string RedisValue) :
  processCommand now value db = Done reply db' ->
  snd (Write reply) = true /\ resp.Type_ reply <> ARRAY /\
  (resp.Type_ reply = STRING \/ resp.Type_ reply = ERROR \/
   resp.Type_ reply = INTEGER \/ resp.Type_ reply = BULK).
Proof.
  intros E. destruct (replies_processCommand now value db reply db' E) as [Hw Hty].
  split; [exact Hw|]. split; [|exact Hty].
  destruct Hty as [-> | [-> | [-> | ->]]]; discriminate.
Qed.

Lemma replies_are_writable_witness :
  snd (Write (NewSimpleString "none")) = true /\
  resp.Type_ (NewSimpleString "none") <> ARRAY /\
  (resp.Type_ (NewSimpleString "none") = STRING \/
   resp.Type_ (NewSimpleString "none") = ERROR \/
   resp.Type_ (NewSimpleString "none") = INTEGER \/
   resp.Type_ (NewSimpleString "none") = BULK).
Proof.
  exact (replies_are_writable 0 (request ["TYPE"; "k"]) (NewSimpleString "none")
           ∅ ∅ eq_refl).
Defined.

Section Commands.

Implicit Types (db : gmap string RedisValue) (now : Z) (k : string)
  (rv : RedisValue) (args : list Value).

(** Dispatch on the [Bulk] field of the first element of an Array. *)
Lemma processCommand_dispatch now (value first : Value) args db :
  resp.Type_ value = ARRAY -> Array value = first :: args ->
  processCommand now value db
  = (if String.eqb (Bulk first) "PING" then handlePing args
     else if String.eqb (Bulk first) "SET" then handleSet args
     else if String.eqb (Bulk first) "GET" then handleGet now args
     else if String.eqb (Bulk first) "DEL" then handleDel args
     else if String.eqb (Bulk first) "LPUSH" then handleLPush now args
     else if String.eqb (Bulk first) "RPUSH" then handleRPush now args
     else if String.eqb (Bulk first) "LPOP" then handleLPop now args
     else if String.eqb (Bulk first) "RPOP" then handleRPop now args
     else if String.eqb (Bulk first) "LLEN" then handleLLen now args
     else if String.eqb (Bulk first) "TYPE" then handleType now args
     else if String.eqb (Bulk first) "QUIT" then cret (NewSimpleString "OK")
     else cret (NewError ("ERR unknown command '" ++ Bulk first ++ "'"))) db.
Proof.
  intros Hty Harr. unfold processCommand. rewrite Hty, Harr. reflexivity.
Qed.

Lemma processCommand_DEL now k db :
  processCommand now (request ["DEL"; k]) db = handleDel [NewBulkString k] db.
Proof. reflexivity. Qed.

Lemma not_list (rv : RedisValue) :
  server.Type_ rv <> "list" -> negb (String.eqb (server.Type_ rv) "list") = true.
Proof. intros H. apply negb_true_iff. now apply String.eqb_neq. Qed.

(** The start of a handler with one key, on an entry that is not expired. *)
Lemma GetValue_then {A} now k db rv (f : option RedisValue -> Cmd A) :
  db !! k = Some rv -> IsExpired now rv = false ->
  cbind (Database_GetValue now k) f db = f (Some rv) db.
Proof. intros Hk Hlive. unfold cbind. now rewrite (GetValue_live now k db rv). Qed.

Lemma GetValue_then_expired {A} now k db rv (f : option RedisValue -> Cmd A) :
  db !! k = Some rv -> IsExpired now rv = true ->
  cbind (Database_GetValue now k) f db = f None (delete k db).
Proof. intros Hk Hx. unfold cbind. now rewrite (GetValue_expired now k db rv). Qed.

(** A pop on a live list with more than one element. *)
Lemma pop_front now k db rv (x y : string) (l : list string) :
  db !! k = Some rv -> IsExpired now rv = false ->
  server.Type_ rv = "list" -> List_ rv = x :: y :: l ->
  handleLPop now [NewBulkString k] db
  = Done (NewBulkString x) (<[k := set_List rv (y :: l)]> db).
Proof.
  intros Hk Hlive Hty Hl. unfold handleLPop. cbn [length Nat.eqb negb].
  unfold cbind at 1. cbn [index lookup list_lookup Bulk NewBulkString].
  rewrite (GetValue_then now k db rv) by assumption.
  rewrite Hty. cbn [String.eqb Ascii.eqb Bool.eqb negb].
  unfold popAndReply, ListPop. rewrite Hty, Hl.
  cbn [String.eqb Ascii.eqb Bool.eqb negb length Nat.eqb orb hd].
  change (drop 1 (x :: y :: l)) with (y :: l).
  unfold cbind, write_back, cret. rewrite ListLength_list by exact Hty.
  reflexivity.
Qed.

Lemma pop_back now k db rv (x y : string) (l : list string) :
  db !! k = Some rv -> IsExpired now rv = false ->
  server.Type_ rv = "list" -> List_ rv = ((y :: l) ++ [x])%list ->
  handleRPop now [NewBulkString k] db
  = Done (NewBulkString x) (<[k := set_List rv (y :: l)]> db).
Proof.
  intros Hk Hlive Hty Hl. unfold handleRPop. cbn [length Nat.eqb negb].
  unfold cbind at 1. cbn [index lookup list_lookup Bulk NewBulkString].
  rewrite (GetValue_then now k db rv) by assumption.
  rewrite Hty. cbn [String.eqb Ascii.eqb Bool.eqb negb].
  unfold popAndReply, ListPop. rewrite Hty, Hl.
  cbn [String.eqb Ascii.eqb Bool.eqb negb orb].
  assert (Hlen : length ((y :: l) ++ [x])%list = S (length (y :: l)))
    by (rewrite length_app; simpl; lia).
  rewrite Hlen. cbn [Nat.eqb negb].
  replace (S (length (y :: l)) - 1)%nat with (length (y :: l)) by lia.
  rewrite take_app_length, List.last_last.
  unfold cbind, write_back, cret. rewrite ListLength_list by exact Hty.
  reflexivity.
Qed.

End Commands.

(** X12. [SET k v] installs a String entry whatever the key held before
    (a list, an expired entry): a following [GET k] returns [v] as a
    BulkString and [TYPE k] returns "string", both without changing the
    store. *)
Theorem set_then_get
    (now1 now2 now3 : Z) (db : gmap string RedisValue) (k v : string) :
  exists db1 : gmap string RedisValue,
    processCommand now1 (request ["SET"; k; v]) db
      = Done (NewSimpleString "OK") db1 /\
    processCommand now2 (request ["GET"; k]) db1 = Done (NewBulkString v) db1 /\
    processCommand now3 (request ["TYPE"; k]) db1
      = Done (NewSimpleString "string") db1.
Proof.
  exists (<[k := NewStringValue v]> db).
  split; [apply processCommand_SET|]. split.
  - rewrite processCommand_GET. unfold handleGet, cbind, index, Database_Get.
    cbn [length Nat.eqb negb lookup list_lookup Bulk NewBulkString].
    now rewrite lookup_insert_eq.
  - rewrite processCommand_TYPE. unfold handleType.
    cbn [length Nat.eqb negb]. unfold cbind at 1.
    cbn [index lookup list_lookup Bulk NewBulkString].
    rewrite (GetValue_then now3 k _ (NewStringValue v));
      [reflexivity | apply lookup_insert_eq | reflexivity].
Qed.

(** X13. [DEL k] replies Integer 1 and removes the key when the map holds
    an entry for it, expired or not, and replies Integer 0 and changes
    nothing when it holds none; after it the key is absent. *)
Theorem del_removes_key (now : Z) (db : gmap string RedisValue) (k : string) :
  (forall rv : RedisValue,
     db !! k = Some rv ->
     processCommand now (request ["DEL"; k]) db
       = Done (NewInteger 1) (delete k db)) /\
  (db !! k = None ->
   processCommand now (request ["DEL"; k]) db = Done (NewInteger 0) db) /\
  (forall (reply : Value) (db' : gmap string RedisValue),
     processCommand now (request ["DEL"; k]) db = Done reply db' ->
     db' !! k = None).
Proof.
  assert (Hrun : processCommand now (request ["DEL"; k]) db
                 = match db !! k with
                   | Some _ => Done (NewInteger 1) (delete k db)
                   | None => Done (NewInteger 0) db
                   end).
  { rewrite processCommand_DEL. unfold handleDel, cbind, index, Database_Del.
    cbn [length Nat.eqb negb lookup list_lookup Bulk NewBulkString].
    now destruct (db !! k). }
  split; [|split].
  - intros rv Hk. now rewrite Hrun, Hk.
  - intros Hk. now rewrite Hrun, Hk.
  - intros reply db'. rewrite Hrun. destruct (db !! k) eqn:Hk; intros [= _ <-];
      [apply lookup_delete_eq | exact Hk].
Qed.

Lemma del_removes_key_witness :
  processCommand 9 (request ["DEL"; "session"]) {[ "session" := stale_list ]}
    = Done (NewInteger 1) ∅ /\
  processCommand 9 (request ["DEL"; "session"]) ∅ = Done (NewInteger 0) ∅.
Proof.
  split.
  - rewrite <- (delete_singleton_eq "session" stale_list).
    exact (proj1 (del_removes_key 9 {[ "session" := stale_list ]} "session")
             stale_list (lookup_singleton_eq _ _)).
  - exact (proj1 (proj2 (del_removes_key 9 ∅ "session")) (lookup_empty _)).
Defined.

(** X14. On a key that holds a live entry of another kind, [GET] replies
    with the null BulkString (no error), every list command replies with
    the WRONGTYPE Error, and [TYPE] names the kind; none of them changes
    the store. *)
Theorem other_kind_is_refused
    (now : Z) (db : gmap string RedisValue) (k : string) (rv : RedisValue) :
  db !! k = Some rv ->
  IsExpired now rv = false ->
  (server.Type_ rv <> "string" ->
   processCommand now (request ["GET"; k]) db = Done NewNullBulkString db) /\
  (server.Type_ rv <> "list" ->
   (forall vs : list string, vs <> [] ->
      processCommand now (request ("LPUSH" :: k :: vs)) db
        = Done (NewError WRONGTYPE) db /\
      processCommand now (request ("RPUSH" :: k :: vs)) db
        = Done (NewError WRONGTYPE) db) /\
   processCommand now (request ["LPOP"; k]) db = Done (NewError WRONGTYPE) db /\
   processCommand now (request ["RPOP"; k]) db = Done (NewError WRONGTYPE) db /\
   processCommand now (request ["LLEN"; k]) db = Done (NewError WRONGTYPE) db) /\
  processCommand now (request ["TYPE"; k]) db
    = Done (NewSimpleString (server.Type_ rv)) db.
Proof.
  intros Hk Hlive. split; [|split].
  - intros Hty. rewrite processCommand_GET.
    unfold handleGet, cbind, index, Database_Get.
    cbn [length Nat.eqb negb lookup list_lookup Bulk NewBulkString].
    rewrite Hk, Hlive.
    destruct (String.eqb_spec (server.Type_ rv) "string"); [contradiction|].
    reflexivity.
  - intros Hty. pose proof (not_list rv Hty) as Hn.
    split; [|split; [|split]].
    + intros vs Hvs. split.
      * rewrite processCommand_LPUSH. unfold handleLPush.
        rewrite two_args_or_more by exact Hvs. unfold cbind at 1.
        cbn [index lookup list_lookup Bulk NewBulkString].
        rewrite (GetValue_then now k db rv) by assumption. now rewrite Hn.
      * rewrite processCommand_RPUSH. unfold handleRPush.
        rewrite two_args_or_more by exact Hvs. unfold cbind at 1.
        cbn [index lookup list_lookup Bulk NewBulkString].
        rewrite (GetValue_then now k db rv) by assumption. now rewrite Hn.
    + rewrite processCommand_LPOP. unfold handleLPop. cbn [length Nat.eqb negb].
      unfold cbind at 1. cbn [index lookup list_lookup Bulk NewBulkString].
      rewrite (GetValue_then now k db rv) by assumption. now rewrite Hn.
    + rewrite processCommand_RPOP. unfold handleRPop. cbn [length Nat.eqb negb].
      unfold cbind at 1. cbn [index lookup list_lookup Bulk NewBulkString].
      rewrite (GetValue_then now k db rv) by assumption. now rewrite Hn.
    + rewrite processCommand_LLEN. unfold handleLLen. cbn [length Nat.eqb negb].
      unfold cbind at 1. cbn [index lookup list_lookup Bulk NewBulkString].
      rewrite (GetValue_then now k db rv) by assumption. now rewrite Hn.
  - rewrite processCommand_TYPE. unfold handleType. cbn [length Nat.eqb negb].
    unfold cbind at 1. cbn [index lookup list_lookup Bulk NewBulkString].
    now rewrite (GetValue_then now k db rv) by assumption.
Qed.

Lemma other_kind_is_refused_witness :
  let db : gmap string RedisValue := {[ "tags" := set_of ["a"] ]} in
  processCommand 0 (request ["GET"; "tags"]) db = Done NewNullBulkString db /\
  processCommand 0 (request ["LLEN"; "tags"]) db = Done (NewError WRONGTYPE) db /\
  processCommand 0 (request ["TYPE"; "tags"]) db = Done (NewSimpleString "set") db.
Proof.
  cbv zeta.
  destruct (other_kind_is_refused 0 {[ "tags" := set_of ["a"] ]} "tags"
              (set_of ["a"]) (lookup_singleton_eq _ _) eq_refl)
    as (Hget & Hlist & Htype).
  split; [apply Hget; discriminate|].
  split; [apply Hlist; discriminate | exact Htype].
Defined.

(** X15. A command given a number of arguments it does not accept is
    answered with the Error "ERR wrong number of arguments for '<name>'
    command", the name in lower case, and leaves the store unchanged;
    this holds for the ten commands that check their arguments (QUIT
    checks nothing) and for arguments of any kind. *)
Theorem wrong_arity_is_error
    (now : Z) (value first : Value) (args : list Value)
    (db : gmap string RedisValue)
    (command name : string) (accepts : nat -> bool) :
  In (command, (name, accepts)) arity_table ->
  resp.Type_ value = ARRAY ->
  Array value = first :: args ->
  Bulk first = command ->
  accepts (length args) = false ->
  processCommand now value db
  = Done (NewError ("ERR wrong number of arguments for '" ++ name ++ "' command")) db.
Proof.
  intros Hin Hty Harr Hcmd Hacc.
  rewrite (processCommand_dispatch now value first args db Hty Harr), Hcmd.
  unfold arity_table in Hin. cbn [In] in Hin.
  repeat (destruct Hin as [Hin | Hin];
          [injection Hin as <- <- <-;
           destruct args as [|a0 [|a1 [|a2 args]]]; try discriminate Hacc;
           reflexivity|]).
  contradiction.
Qed.

Lemma wrong_arity_is_error_witness :
  processCommand 0 (request ["DEL"]) ∅
    = Done (NewError "ERR wrong number of arguments for 'del' command") ∅ /\
  processCommand 0 (request ["DEL"; "a"; "b"]) ∅
    = Done (NewError "ERR wrong number of arguments for 'del' command") ∅ /\
  processCommand 0 (request ["LPUSH"; "k"]) ∅
    = Done (NewError "ERR wrong number of arguments for 'lpush' command") ∅.
Proof.
  assert (Hdel : In ("DEL", ("del", fun n => (n =? 1)%nat)) arity_table)
    by (cbn; tauto).
  assert (Hlpush : In ("LPUSH", ("lpush", fun n => (2 <=? n)%nat)) arity_table)
    by (cbn; tauto).
  split; [|split].
  - exact (wrong_arity_is_error 0 (request ["DEL"]) (NewBulkString "DEL") []
             ∅ _ _ _ Hdel eq_refl eq_refl eq_refl eq_refl).
  - exact (wrong_arity_is_error 0 (request ["DEL"; "a"; "b"]) (NewBulkString "DEL")
             [NewBulkString "a"; NewBulkString "b"]
             ∅ _ _ _ Hdel eq_refl eq_refl eq_refl eq_refl).
  - exact (wrong_arity_is_error 0 (request ["LPUSH"; "k"]) (NewBulkString "LPUSH")
             [NewBulkString "k"]
             ∅ _ _ _ Hlpush eq_refl eq_refl eq_refl eq_refl).
Defined.

(** X16. A command name is matched byte for byte, in upper case only:
    when the [Bulk] field of the first element is none of the eleven
    names, whatever the arguments, the reply is the Error
    "ERR unknown command '<name>'" and the store is unchanged.  So "ping"
    is unknown, and so is a first element that is no BulkString, whose
    name reads as the empty string. *)
Theorem unknown_command_is_error
    (now : Z) (value first : Value) (args : list Value)
    (db : gmap string RedisValue) :
  resp.Type_ value = ARRAY ->
  Array value = first :: args ->
  ~ In (Bulk first) command_names ->
  processCommand now value db
  = Done (NewError ("ERR unknown command '" ++ Bulk first ++ "'")) db.
Proof.
  intros Hty Harr Hnot.
  rewrite (processCommand_dispatch now value first args db Hty Harr).
  repeat match goal with
         | |- (if String.eqb ?a ?b then _ else _) _ = _ =>
             destruct (String.eqb_spec a b) as [e | _];
             [exfalso; apply Hnot; rewrite e; cbn; tauto|]
         end.
  reflexivity.
Qed.

Lemma unknown_command_is_error_witness :
  processCommand 0 (request ["ping"]) ∅
    = Done (NewError "ERR unknown command 'ping'") ∅ /\
  processCommand 0 (NewArray [NewSimpleString "PING"]) ∅
    = Done (NewError "ERR unknown command ''") ∅.
Proof.
  split.
  - apply (unknown_command_is_error 0 (request ["ping"]) (NewBulkString "ping") []);
      [reflexivity | reflexivity |].
    cbn. intros H. repeat (destruct H as [H | H]; [discriminate H|]). exact H.
  - apply (unknown_command_is_error 0 (NewArray [NewSimpleString "PING"])
             (NewSimpleString "PING") []);
      [reflexivity | reflexivity |].
    cbn. intros H. repeat (destruct H as [H | H]; [discriminate H|]). exact H.
Defined.

(** X17. On a live list with more than one element, [LPOP] returns the
    first element and [RPOP] the last one as a BulkString; the key keeps
    the other elements in their order, and its expiration. *)
Theorem pop_keeps_the_rest
    (now : Z) (db : gmap string RedisValue) (k : string) (rv : RedisValue) :
  db !! k = Some rv ->
  IsExpired now rv = false ->
  server.Type_ rv = "list" ->
  (forall (x y : string) (l : list string),
     List_ rv = x :: y :: l ->
     processCommand now (request ["LPOP"; k]) db
       = Done (NewBulkString x) (<[k := set_List rv (y :: l)]> db)) /\
  (forall (x y : string) (l : list string),
     List_ rv = ((y :: l) ++ [x])%list ->
     processCommand now (request ["RPOP"; k]) db
       = Done (NewBulkString x) (<[k := set_List rv (y :: l)]> db)).
Proof.
  intros Hk Hlive Hty. split; intros x y l Hl.
  - rewrite processCommand_LPOP. now apply (pop_front now k db rv x y l).
  - rewrite processCommand_RPOP. now apply (pop_back now k db rv x y l).
Qed.

Lemma pop_keeps_the_rest_witness :
  let rv := set_List NewListValue ["a"; "b"; "c"] in
  processCommand 0 (request ["LPOP"; "k"]) {[ "k" := rv ]}
    = Done (NewBulkString "a") (<["k" := set_List rv ["b"; "c"]]> {[ "k" := rv ]}) /\
  processCommand 0 (request ["RPOP"; "k"]) {[ "k" := rv ]}
    = Done (NewBulkString "c") (<["k" := set_List rv ["a"; "b"]]> {[ "k" := rv ]}).
Proof.
  cbv zeta.
  destruct (pop_keeps_the_rest 0 {[ "k" := set_List NewListValue ["a"; "b"; "c"] ]}
              "k" (set_List NewListValue ["a"; "b"; "c"])
              (lookup_singleton_eq _ _) eq_refl eq_refl) as [Hl Hr].
  split; [exact (Hl "a" "b" ["c"] eq_refl) | exact (Hr "c" "a" ["b"] eq_refl)].
Defined.

Section Queues.

Implicit Types (db : gmap string RedisValue) (now : Z) (k : string)
  (rv : RedisValue).

(** The requests [LPOP k] at the given times. *)
Lemma drain_front k (l : list string) :
  forall (times : list Z) db rv,
    length times = length l -> l <> [] ->
    db !! k = Some rv -> ExpiresAt rv = None ->
    server.Type_ rv = "list" -> List_ rv = l ->
    dispatchAll (map (fun t => (t, request ["LPOP"; k])) times) db
    = Done (map NewBulkString l) (delete k db).
Proof.
  induction l as [|x l IH]; intros times db rv Hlen Hne Hk Hexp Hty Hl;
    [congruence|].
  destruct times as [|t times]; [discriminate|]. injection Hlen as Hlen.
  assert (Hlive : forall now, IsExpired now rv = false)
    by (intros now; unfold IsExpired; now rewrite Hexp).
  cbn [map dispatchAll]. unfold cbind at 1. rewrite processCommand_LPOP.
  destruct l as [|y l].
  - rewrite (pop_singleton true t k db rv x Hk (Hlive t) Hty Hl).
    destruct times; [|discriminate]. reflexivity.
  - rewrite (pop_front t k db rv x y l Hk (Hlive t) Hty Hl).
    unfold cbind.
    rewrite (IH times (<[k := set_List rv (y :: l)]> db) (set_List rv (y :: l)));
      [|exact Hlen | discriminate | apply lookup_insert_eq | exact Hexp
       | exact Hty | reflexivity].
    now rewrite delete_insert_eq.
Qed.

End Queues.

(** X18. A list is a queue from right to left and a stack on the left:
    on an absent key, after [RPUSH k v1 ... vn] the next n [LPOP k]
    return v1, ..., vn in this order, and after [LPUSH k v1 ... vn] they
    return vn, ..., v1; in both cases the last pop removes the key and
    the store is the one before the push. *)
Theorem push_then_drain
    (now : Z) (times : list Z) (db : gmap string RedisValue) (k : string)
    (vs : list string) :
  db !! k = None ->
  vs <> [] ->
  length times = length vs ->
  dispatchAll ((now, request ("RPUSH" :: k :: vs))
               :: map (fun t => (t, request ["LPOP"; k])) times) db
    = Done (NewInteger (Z.of_nat (length vs)) :: map NewBulkString vs) db /\
  dispatchAll ((now, request ("LPUSH" :: k :: vs))
               :: map (fun t => (t, request ["LPOP"; k])) times) db
    = Done (NewInteger (Z.of_nat (length vs)) :: map NewBulkString (rev vs)) db.
Proof.
  intros Hk Hvs Hlen. split.
  - cbn [dispatchAll]. unfold cbind at 1. rewrite processCommand_RPUSH.
    rewrite (push_absent false now k vs db Hvs Hk). unfold cbind.
    rewrite (drain_front k vs times _ (set_List NewListValue vs));
      [|exact Hlen | exact Hvs | apply lookup_insert_eq | reflexivity
       | reflexivity | reflexivity].
    now rewrite delete_insert_eq, delete_id.
  - cbn [dispatchAll]. unfold cbind at 1. rewrite processCommand_LPUSH.
    rewrite (push_absent true now k vs db Hvs Hk). unfold cbind.
    rewrite (drain_front k (rev vs) times _ (set_List NewListValue (rev vs)));
      [|now rewrite length_rev
       |intros E; apply Hvs; apply (f_equal (@length string)) in E;
        rewrite length_rev in E; now destruct vs
       | apply lookup_insert_eq | reflexivity | reflexivity | reflexivity].
    now rewrite delete_insert_eq, delete_id.
Qed.

Lemma push_then_drain_witness :
  dispatchAll [(0, request ["RPUSH"; "q"; "a"; "b"; "c"]);
               (1, request ["LPOP"; "q"]); (2, request ["LPOP"; "q"]);
               (3, request ["LPOP"; "q"])] ∅
  = Done [NewInteger 3; NewBulkString "a"; NewBulkString "b"; NewBulkString "c"] ∅.
Proof.
  refine (proj1 (push_then_drain 0 [1; 2; 3] ∅ "q" ["a"; "b"; "c"]
                   (lookup_empty _) _ eq_refl)).
  discriminate.
Defined.

(** X19. A key whose entry has expired, of whatever kind, is a fresh key
    for a push and an absent key for a pop: [LPUSH] and [RPUSH] replace
    it by a new list of the pushed values with no expiration, and [LPOP]
    and [RPOP] reply with the null BulkString and remove it. *)
Theorem expired_key_for_push_and_pop
    (now : Z) (db : gmap string RedisValue) (k : string) (rv : RedisValue) :
  db !! k = Some rv ->
  IsExpired now rv = true ->
  (forall vs : list string, vs <> [] ->
     processCommand now (request ("LPUSH" :: k :: vs)) db
       = Done (NewInteger (Z.of_nat (length vs)))
              (<[k := set_List NewListValue (rev vs)]> db) /\
     processCommand now (request ("RPUSH" :: k :: vs)) db
       = Done (NewInteger (Z.of_nat (length vs)))
              (<[k := set_List NewListValue vs]> db)) /\
  processCommand now (request ["LPOP"; k]) db = Done NewNullBulkString (delete k db) /\
  processCommand now (request ["RPOP"; k]) db = Done NewNullBulkString (delete k db).
Proof.
  intros Hk Hx. split; [|split].
  - intros vs Hvs.
    assert (E : forall b, pushAndReply k NewListValue
                  (NewBulkString k :: map NewBulkString vs) b
                  (<[k := NewListValue]> (delete k db))
                = Done (NewInteger (Z.of_nat (length vs)))
                    (<[k := set_List NewListValue (if b then rev vs else vs)]> db)).
    { intros b. unfold pushAndReply, cbind, write_back, cret.
      rewrite pushAll_list by reflexivity. rewrite ListLength_list by reflexivity.
      rewrite insert_insert_eq, insert_delete_eq. cbn [List_ NewListValue].
      destruct b; cbn [app]; rewrite ?app_nil_r, ?length_rev; reflexivity. }
    split.
    + rewrite processCommand_LPUSH. unfold handleLPush.
      rewrite two_args_or_more by exact Hvs. unfold cbind at 1.
      cbn [index lookup list_lookup Bulk NewBulkString].
      rewrite (GetValue_then_expired now k db rv) by assumption.
      unfold cbind at 1. cbn [Database_SetValue]. apply (E true).
    + rewrite processCommand_RPUSH. unfold handleRPush.
      rewrite two_args_or_more by exact Hvs. unfold cbind at 1.
      cbn [index lookup list_lookup Bulk NewBulkString].
      rewrite (GetValue_then_expired now k db rv) by assumption.
      unfold cbind at 1. cbn [Database_SetValue]. apply (E false).
  - rewrite processCommand_LPOP. unfold handleLPop. cbn [length Nat.eqb negb].
    unfold cbind at 1. cbn [index lookup list_lookup Bulk NewBulkString].
    now rewrite (GetValue_then_expired now k db rv) by assumption.
  - rewrite processCommand_RPOP. unfold handleRPop. cbn [length Nat.eqb negb].
    unfold cbind at 1. cbn [index lookup list_lookup Bulk NewBulkString].
    now rewrite (GetValue_then_expired now k db rv) by assumption.
Qed.

Lemma expired_key_for_push_and_pop_witness :
  processCommand 10 (request ["RPUSH"; "session"; "x"; "y"])
    {[ "session" := stale_list ]}
  = Done (NewInteger 2) {[ "session" := set_List NewListValue ["x"; "y"] ]} /\
  processCommand 10 (request ["LPOP"; "session"]) {[ "session" := stale_list ]}
  = Done NewNullBulkString ∅.
Proof.
  destruct (expired_key_for_push_and_pop 10 {[ "session" := stale_list ]}
              "session" stale_list (lookup_singleton_eq _ _) eq_refl)
    as (Hpush & Hpop & _).
  split.
  - refine (proj2 (Hpush ["x"; "y"] _)). discriminate.
  - exact Hpop.
Defined.

(** X20. Expiration is strict: a String entry given [SetExpiration(ttl)]
    at the instant [set_at] is served by [GET] up to and including the
    instant [set_at + ttl], and from the first instant after it [GET]
    replies with the null BulkString and removes the key. *)
Theorem expiration_is_strict
    (set_at ttl now : Z) (db : gmap string RedisValue) (k v : string) :
  db !! k = Some (SetExpiration set_at ttl (NewStringValue v)) ->
  (now <= set_at + ttl ->
   processCommand now (request ["GET"; k]) db = Done (NewBulkString v) db) /\
  (set_at + ttl < now ->
   processCommand now (request ["GET"; k]) db
     = Done NewNullBulkString (delete k db)).
Proof.
  intros Hk. rewrite processCommand_GET.
  unfold handleGet, cbind, index, Database_Get.
  cbn [length Nat.eqb negb lookup list_lookup Bulk NewBulkString].
  rewrite Hk. unfold IsExpired. cbn [ExpiresAt SetExpiration]. split; intros H.
  - destruct (Z.ltb_spec (set_at + ttl) now); [lia | reflexivity].
  - destruct (Z.ltb_spec (set_at + ttl) now); [reflexivity | lia].
Qed.

Lemma expiration_is_strict_witness :
  let db : gmap string RedisValue :=
    {[ "k" := SetExpiration 100 50 (NewStringValue "v") ]} in
  processCommand 150 (request ["GET"; "k"]) db = Done (NewBulkString "v") db /\
  processCommand 151 (request ["GET"; "k"]) db = Done NewNullBulkString ∅.
Proof.
  cbv zeta. split.
  - refine (proj1 (expiration_is_strict 100 50 150 _ "k" "v"
                     (lookup_singleton_eq _ _)) _). lia.
  - refine (proj2 (expiration_is_strict 100 50 151 _ "k" "v"
                     (lookup_singleton_eq _ _)) _). lia.
Defined.

(** * The connection loop on a pipeline of requests *)

Section Pipeline.

Implicit Types (db : gmap string RedisValue) (clock : nat -> Z).





End Pipeline.



(** * Sets and hashes of the value model *)

Section SetsAndHashes.

Lemma set_of_snoc (members : list string) (member : string) :
  set_of (members ++ [member]) = fst (SetAdd (set_of members) member).
Proof. unfold set_of. now rewrite fold_left_app. Qed.

Lemma set_of_spec (members : list string) :
  server.Type_ (set_of members) = "set" /\
  forall member : string,
    Set_ (set_of members) !! member
    = if bool_decide (member ∈ members) then Some true else None.
Proof.
  induction members as [|m members [IHty IH]] using rev_ind.
  - split; [reflexivity|]. intros member. cbn.
    rewrite lookup_empty. case_bool_decide as H; [|reflexivity].
    now apply not_elem_of_nil in H.
  - rewrite set_of_snoc. unfold SetAdd. rewrite IHty.
    cbn [String.eqb Ascii.eqb Bool.eqb negb fst server.Type_ set_Set Set_].
    split; [exact IHty|]. intros member.
    destruct (decide (m = member)) as [-> | Hne].
    + rewrite lookup_insert_eq. rewrite bool_decide_true; [reflexivity|].
      apply elem_of_app. right. now apply list_elem_of_singleton.
    + rewrite lookup_insert_ne by exact Hne. rewrite IH.
      apply (f_equal (fun b : bool => if b then Some true else None)).
      apply bool_decide_ext. rewrite elem_of_app, list_elem_of_singleton.
      split; [tauto | intros [H | H]; [exact H | congruence]].
Qed.

Lemma hash_of_snoc (fields : list (string * string)) (field value : string) :
  hash_of (fields ++ [(field, value)]) = fst (HashSet (hash_of fields) field value).
Proof. unfold hash_of. now rewrite fold_left_app. Qed.

Lemma hash_of_spec (fields : list (string * string)) :
  server.Type_ (hash_of fields) = "hash" /\
  Hash_ (hash_of fields) = list_to_map (rev fields).
Proof.
  induction fields as [|[f v] fields [IHty IH]] using rev_ind.
  - split; reflexivity.
  - rewrite hash_of_snoc. unfold HashSet. rewrite IHty.
    cbn [String.eqb Ascii.eqb Bool.eqb negb fst server.Type_ set_Hash Hash_].
    split; [exact IHty|]. rewrite rev_app_distr. cbn [rev app list_to_map].
    now rewrite IH.
Qed.

End SetsAndHashes.

(** X22. A set built by [NewSetValue] and [SetAdd] holds exactly the
    members added: [SetContains] tells whether a member was added,
    [SetAdd] returns true only for a member that was not there yet and
    leaves it there, and [SetRemove] returns whether the member was
    there, takes it out and keeps every other one. *)
Theorem set_membership (members : list string) (member : string) :
  SetContains (set_of members) member = bool_decide (member ∈ members) /\
  snd (SetAdd (set_of members) member) = negb (bool_decide (member ∈ members)) /\
  SetContains (fst (SetAdd (set_of members) member)) member = true /\
  snd (SetRemove (set_of members) member) = bool_decide (member ∈ members) /\
  SetContains (fst (SetRemove (set_of members) member)) member = false /\
  forall other : string,
    other <> member ->
    SetContains (fst (SetRemove (set_of members) member)) other
    = bool_decide (other ∈ members).
Proof.
  destruct (set_of_spec members) as [Hty Hset].
  unfold SetContains, SetAdd, SetRemove. rewrite Hty.
  cbn [String.eqb Ascii.eqb Bool.eqb negb fst snd server.Type_ set_Set Set_].
  rewrite Hty. cbn [String.eqb Ascii.eqb Bool.eqb negb].
  rewrite lookup_insert_eq, lookup_delete_eq, Hset.
  repeat split; try (now destruct (bool_decide (member ∈ members))).
  intros other Hne. rewrite lookup_delete_ne by congruence. rewrite Hset.
  now destruct (bool_decide (other ∈ members)).
Qed.

Lemma set_membership_witness :
  SetContains (fst (SetRemove (set_of ["a"; "b"; "a"]) "a")) "b" = true /\
  SetContains (fst (SetRemove (set_of ["a"; "b"; "a"]) "a")) "a" = false.
Proof.
  destruct (set_membership ["a"; "b"; "a"] "a") as (_ & _ & _ & _ & Hgone & Hkept).
  split; [|exact Hgone]. rewrite (Hkept "b"); [reflexivity | discriminate].
Defined.

(** X23. A hash built by [NewHashValue] and [HashSet] maps every field
    to the value set last: [HashGetAll] returns exactly these fields,
    [HashGet] after [HashSet] of a field returns its new value and
    leaves the other fields as they were, [HashSet] returns true only
    for a new field, and after [HashDelete] the field is gone. *)
Theorem hash_fields (fields : list (string * string)) (field value : string) :
  HashGetAll (hash_of fields) = Some (list_to_map (rev fields)) /\
  HashGet (hash_of fields) field
    = match (list_to_map (rev fields) : gmap string string) !! field with
      | Some v => (v, true)
      | None => ("", false)
      end /\
  HashGet (fst (HashSet (hash_of fields) field value)) field = (value, true) /\
  snd (HashSet (hash_of fields) field value)
    = negb (snd (HashGet (hash_of fields) field)) /\
  HashGet (fst (HashDelete (hash_of fields) field)) field = ("", false) /\
  snd (HashDelete (hash_of fields) field) = snd (HashGet (hash_of fields) field) /\
  forall other : string,
    other <> field ->
    HashGet (fst (HashSet (hash_of fields) field value)) other
      = HashGet (hash_of fields) other /\
    HashGet (fst (HashDelete (hash_of fields) field)) other
      = HashGet (hash_of fields) other.
Proof.
  destruct (hash_of_spec fields) as [Hty Hhash].
  unfold HashGetAll, HashGet, HashSet, HashDelete. rewrite Hty.
  cbn [String.eqb Ascii.eqb Bool.eqb negb fst snd server.Type_ set_Hash Hash_].
  rewrite Hty. cbn [String.eqb Ascii.eqb Bool.eqb negb].
  rewrite lookup_insert_eq, lookup_delete_eq, Hhash.
  repeat split; try (now destruct (list_to_map (rev fields) !! field)).
  - now rewrite lookup_insert_ne by congruence.
  - now rewrite lookup_delete_ne by congruence.
Qed.

Lemma hash_fields_witness :
  HashGet (fst (HashSet (hash_of [("name", "Alice"); ("age", "30")]) "name" "Bob"))
    "age" = ("30", true).
Proof.
  destruct (hash_fields [("name", "Alice"); ("age", "30")] "name" "Bob")
    as (_ & _ & _ & _ & _ & _ & Hother).
  rewrite (proj1 (Hother "age" ltac:(discriminate))). reflexivity.
Defined.

(** * The wire format of an Array and the fields the engine reads *)

Section ArrayBytes.

Lemma writeElements_all (arr : list Value) :
  Forall (fun v => known_types v = true) arr ->
  writeElements Write arr = (encodeAll arr, true).
Proof.
  induction 1 as [|v arr Hv _ IH]; [reflexivity|].
  cbn [writeElements encodeAll]. unfold encode.
  pose proof (Write_ok_known v) as Hok. rewrite Hv in Hok.
  destruct (Write v) as [out ok]. simpl in Hok. subst ok. now rewrite IH.
Qed.

Lemma writeElements_stops (good : list Value) (bad : Value) (after : list Value) :
  Forall (fun v => known_types v = true) good ->
  known_types bad = false ->
  writeElements Write (good ++ bad :: after) = (encodeAll good ++ encode bad, false).
Proof.
  intros Hgood Hbad. induction Hgood as [|v good Hv _ IH].
  - cbn [app writeElements encodeAll]. unfold encode.
    pose proof (Write_ok_known bad) as Hok. rewrite Hbad in Hok.
    destruct (Write bad) as [out ok]. simpl in Hok. now subst ok.
  - cbn [app writeElements encodeAll]. unfold encode in *.
    pose proof (Write_ok_known v) as Hok. rewrite Hv in Hok.
    destruct (Write v) as [out ok]. simpl in Hok. subst ok. rewrite IH.
    cbn [fst]. now rewrite append_assoc.
Qed.

(** The view of an argument the handlers take: its [Bulk] field. *)
Lemma pushAll_Bulk (val : RedisValue) (args : list Value) (left : bool) :
  pushAll val (map (fun a => NewBulkString (Bulk a)) args) left
  = pushAll val args left.
Proof.
  unfold pushAll. destruct args as [|a0 args]; [reflexivity|].
  cbn [map]. change (drop 1 (?x :: ?l)) with l.
  change (drop 1 (a0 :: args)) with args. revert val.
  induction args as [|a args IH]; intros val; [reflexivity|].
  cbn [map fold_left]. apply IH.
Qed.

Lemma push_handlers_Bulk (now : Z) (args : list Value)
    (db : gmap string RedisValue) :
  handleLPush now (map (fun a => NewBulkString (Bulk a)) args) db
    = handleLPush now args db /\
  handleRPush now (map (fun a => NewBulkString (Bulk a)) args) db
    = handleRPush now args db.
Proof.
  unfold handleLPush, handleRPush. rewrite length_map.
  destruct (length args <? 2)%nat; [split; reflexivity|].
  destruct args as [|a0 args]; [split; reflexivity|].
  pose proof (fun val left => pushAll_Bulk val (a0 :: args) left) as E.
  cbn [map] in E.
  split;
    (unfold cbind, index;
     cbn [map lookup list_lookup Bulk NewBulkString Database_SetValue];
     destruct (Database_GetValue now (Bulk a0) db) as [[val|] db1|];
     [ destruct (negb _); [reflexivity|];
       unfold pushAndReply, cbind; now rewrite !E
     | unfold pushAndReply, cbind; now rewrite !E
     | reflexivity ]).
Qed.

End ArrayBytes.

(** X24. A non-null Array is written as its header, "*", the number of
    elements and CR LF, followed by the bytes of its elements in order.
    When an element has a [Type] the writer does not know, the header,
    the elements before it and the bytes it produced itself are already
    written, nothing of the later elements is, and [Write] returns the
    error. *)
Theorem array_bytes (good : list Value) (bad : Value) (after : list Value) :
  Forall (fun v => known_types v = true) good ->
  Write (NewArray good)
    = ("*" ++ Itoa (Z.of_nat (length good)) ++ CRLF ++ encodeAll good, true) /\
  (known_types bad = false ->
   Write (NewArray (good ++ bad :: after))
     = ("*" ++ Itoa (Z.of_nat (length (good ++ bad :: after))) ++ CRLF ++
        encodeAll good ++ encode bad, false)).
Proof.
  intros Hgood. split.
  - change (Write (NewArray good)) with (writeArray Write good).
    unfold writeArray. now rewrite writeElements_all.
  - intros Hbad.
    change (Write (NewArray (good ++ bad :: after)))
      with (writeArray Write (good ++ bad :: after)).
    unfold writeArray. now rewrite writeElements_stops.
Qed.

Lemma array_bytes_witness :
  Write (NewArray [NewBulkString "GET"; NewBulkString "k"])
    = ("*2" ++ CRLF ++ "$3" ++ CRLF ++ "GET" ++ CRLF ++ "$1" ++ CRLF ++ "k" ++ CRLF,
       true) /\
  Write (NewArray [NewInteger 1; zeroValue; NewInteger 2])
    = ("*3" ++ CRLF ++ ":1" ++ CRLF, false).
Proof.
  split.
  - apply (array_bytes [NewBulkString "GET"; NewBulkString "k"] zeroValue []).
    repeat (apply Forall_cons_2; [reflexivity|]). apply Forall_nil_2.
  - refine (proj2 (array_bytes [NewInteger 1] zeroValue [NewInteger 2] _) eq_refl).
    apply Forall_cons_2; [reflexivity | apply Forall_nil_2].
Defined.

(** X25. The command engine reads nothing of the elements of a request
    but their [Bulk] field: a request is dispatched exactly like the
    Array of BulkStrings made of these fields, so an element of another
    kind (an Integer, a SimpleString, a nested Array, a null BulkString)
    stands for the empty string. *)
Theorem engine_reads_only_Bulk
    (now : Z) (value : Value) (db : gmap string RedisValue) :
  resp.Type_ value = ARRAY ->
  processCommand now value db
  = processCommand now (request (map Bulk (Array value))) db.
Proof.
  intros Hty. destruct (Array value) as [|first args] eqn:Harr.
  - rewrite (processCommand_bad_shape now value db) by now right.
    reflexivity.
  - rewrite (processCommand_dispatch now value first args db Hty Harr).
    rewrite (processCommand_dispatch now (request (map Bulk (first :: args)))
               (NewBulkString (Bulk first))
               (map (fun a => NewBulkString (Bulk a)) args) db);
      [|reflexivity | unfold request; cbn [Array NewArray map]; now rewrite map_map].
    cbn [Bulk NewBulkString].
    repeat match goal with
           | |- (if ?b then _ else _) _ = (if ?b then _ else _) _ => destruct b
           end; try reflexivity.
    + destruct args as [|a0 [|a1 args]]; reflexivity.
    + destruct args as [|a0 [|a1 [|a2 args]]]; reflexivity.
    + destruct args as [|a0 [|a1 args]]; reflexivity.
    + destruct args as [|a0 [|a1 args]]; reflexivity.
    + symmetry. apply push_handlers_Bulk.
    + symmetry. apply push_handlers_Bulk.
    + destruct args as [|a0 [|a1 args]]; reflexivity.
    + destruct args as [|a0 [|a1 args]]; reflexivity.
    + destruct args as [|a0 [|a1 args]]; reflexivity.
    + destruct args as [|a0 [|a1 args]]; reflexivity.
Qed.

Lemma engine_reads_only_Bulk_witness :
  processCommand 0 (NewArray [NewBulkString "SET"; NewInteger 7; NewSimpleString "v"]) ∅
  = Done (NewSimpleString "OK") {[ "" := NewStringValue "" ]}.
Proof.
  rewrite (engine_reads_only_Bulk 0
             (NewArray [NewBulkString "SET"; NewInteger 7; NewSimpleString "v"]) ∅
             eq_refl).
  reflexivity.
Defined.

(** X26. On a live list [LLEN] replies with the number of its elements
    and changes nothing, and this is the Integer the push that made the
    list replied with. *)
Theorem llen_is_length
    (now : Z) (db : gmap string RedisValue) (k : string) (rv : RedisValue) :
  db !! k = Some rv ->
  IsExpired now rv = false ->
  server.Type_ rv = "list" ->
  processCommand now (request ["LLEN"; k]) db
    = Done (NewInteger (Z.of_nat (length (List_ rv)))) db /\
  forall (vs : list string) (reply : Value) (db' : gmap string RedisValue),
    vs <> [] ->
    processCommand now (request ("RPUSH" :: k :: vs)) db = Done reply db' ->
    processCommand now (request ["LLEN"; k]) db' = Done reply db'.
Proof.
  intros Hk Hlive Hty.
  assert (Hllen : forall db0 rv0,
    db0 !! k = Some rv0 -> IsExpired now rv0 = false ->
    server.Type_ rv0 = "list" ->
    processCommand now (request ["LLEN"; k]) db0
    = Done (NewInteger (Z.of_nat (length (List_ rv0)))) db0).
  { intros db0 rv0 Hk0 Hlive0 Hty0. rewrite processCommand_LLEN.
    unfold handleLLen. cbn [length Nat.eqb negb]. unfold cbind at 1.
    cbn [index lookup list_lookup Bulk NewBulkString].
    rewrite (GetValue_then now k db0 rv0) by assumption.
    rewrite Hty0. cbn [String.eqb Ascii.eqb Bool.eqb negb].
    unfold ListLength. now rewrite Hty0. }
  split; [now apply Hllen|].
  intros vs reply db' Hvs. rewrite processCommand_RPUSH.
  rewrite (push_list false now k vs db rv Hvs Hk Hlive Hty). intros [= <- <-].
  rewrite (Hllen _ (set_List rv (List_ rv ++ vs)));
    [|apply lookup_insert_eq | exact Hlive | exact Hty].
  cbn [List_ set_List]. rewrite length_app. do 3 f_equal. lia.
Qed.

Lemma llen_is_length_witness :
  processCommand 0 (request ["LLEN"; "k"])
    {[ "k" := set_List NewListValue ["a"; "b"; "c"] ]}
  = Done (NewInteger 3) {[ "k" := set_List NewListValue ["a"; "b"; "c"] ]}.
Proof.
  exact (proj1 (llen_is_length 0 {[ "k" := set_List NewListValue ["a"; "b"; "c"] ]}
                  "k" (set_List NewListValue ["a"; "b"; "c"])
                  (lookup_singleton_eq _ _) eq_refl eq_refl)).
Defined.
